(** * Desktop Git client: markdown node filters, dispatcher error handlers,
      locale-aware date formatting

    A shallow embedding of three source files:
    - [lib/markdown-filters/node-filter.ts]  (module [NodeFilter], over [DOM])
    - [lib/dispatcher/error-handlers.ts]     (module [ErrorHandlers])
    - the date formatting helper             (module [FormatDate])

    JavaScript objects are references into an explicit store, promises are
    computations in a state-and-exception monad ([await] is sequencing, a
    rejected promise is a raised exception), and loops whose termination
    depends on a collaborator carry a fuel argument. *)

From Stdlib Require Import Ascii String ZArith.
From stdpp Require Import base option list relations gmap strings pretty.

(** ** Exceptions and the state-and-exception monad *)

(** A thrown JavaScript value: a DOM exception (identified by its name) or
    any other rejection reason. *)
Inductive JsError :=
  | DOMException (name : string)
  | Rejected (reason : string).

Inductive result (A : Type) :=
  | Ok (a : A)
  | Throw (e : JsError).
Arguments Ok {A} a.
Arguments Throw {A} e.

Definition M (S A : Type) : Type := S → result A * S.

Definition ret {S A} (a : A) : M S A := λ s, (Ok a, s).

Definition bind {S A B} (m : M S A) (k : A → M S B) : M S B :=
  λ s, match m s with
       | (Ok a, s') => k a s'
       | (Throw e, s') => (Throw e, s')
       end.

Declare Scope js_scope.
Delimit Scope js_scope with js.
Notation "x <- m ;; k" := (bind m (λ x, k))
  (at level 100, m at next level, right associativity) : js_scope.
Notation "m ;; k" := (bind m (λ _, k))
  (at level 100, right associativity) : js_scope.

(** ** The DOM tree as a store of nodes *)

Module DOM.

(** A node is an object reference.  The store records, per node, its
    kind, its [parentNode] and its ordered [childNodes]; a reference the
    store has no entry for is a detached, empty text node. *)
Definition node := positive.

(** The kinds of node the insertion rules tell apart; [CommentNode] stands
    for the character data that is not text (comments, processing
    instructions). *)
Inductive NodeKind :=
  | DocumentNode
  | DocumentTypeNode
  | DocumentFragmentNode
  | ElementNode
  | TextNode
  | CommentNode
  | AttrNode.

#[global] Instance NodeKind_eq_dec : EqDecision NodeKind.
Proof. solve_decision. Defined.

Record NodeData := mkNode {
  nodeType : NodeKind;
  parentNode : option node;
  childNodes : list node
}.

Abbreviation Store := (gmap node NodeData).

Definition kind_of (s : Store) (n : node) : NodeKind :=
  default TextNode (nodeType <$> s !! n).

Definition parent_of (s : Store) (n : node) : option node :=
  s !! n ≫= parentNode.

Definition children_of (s : Store) (n : node) : list node :=
  default [] (childNodes <$> s !! n).

Definition set_parent (n : node) (p : option node) (s : Store) : Store :=
  <[n := mkNode (kind_of s n) p (children_of s n)]> s.

Definition set_children (n : node) (l : list node) (s : Store) : Store :=
  <[n := mkNode (kind_of s n) (parent_of s n) l]> s.

(** [n.nextSibling] *)
Fixpoint next_in (n : node) (l : list node) : option node :=
  match l with
  | [] => None
  | x :: l' => if decide (x = n) then head l' else next_in n l'
  end.

Definition nextSibling (s : Store) (n : node) : option node :=
  p ← parent_of s n; next_in n (children_of s p).

Definition firstChild (s : Store) (n : node) : option node :=
  head (children_of s n).

(** The DOM "remove" algorithm: take [n] out of its parent's children. *)
Definition detach (n : node) (s : Store) : Store :=
  match parent_of s n with
  | None => s
  | Some p =>
      set_parent n None
        (set_children p (filter (λ x, x ≠ n) (children_of s p)) s)
  end.

(** Insert [x] into a child list before [r], or at the end when [r] is
    null. *)
Fixpoint list_insert_before (x r : node) (l : list node) : list node :=
  match l with
  | [] => [x]
  | y :: l' =>
      if decide (y = r) then x :: y :: l' else y :: list_insert_before x r l'
  end.

Definition insert_at (x : node) (r : option node) (l : list node) : list node :=
  match r with
  | None => l ++ [x]
  | Some r => list_insert_before x r l
  end.

(** "[a] is an inclusive ancestor of [n]": follow parent links from [n].
    Parent chains of a tree are no longer than the store is large. *)
Fixpoint is_inclusive_ancestor_aux (fuel : nat) (s : Store) (a n : node) : bool :=
  bool_decide (a = n) ||
  match fuel with
  | O => false
  | S k =>
      match parent_of s n with
      | Some p => is_inclusive_ancestor_aux k s a p
      | None => false
      end
  end.

Definition is_inclusive_ancestor (s : Store) (a n : node) : bool :=
  is_inclusive_ancestor_aux (size s) s a n.

Definition is_child_of (s : Store) (parent : node) (child : option node) : bool :=
  match child with
  | None => true
  | Some c => bool_decide (parent_of s c = Some parent)
  end.

Definition is_kind (k : NodeKind) (s : Store) (n : node) : bool :=
  bool_decide (kind_of s n = k).

(** The children of a parent after, and before, its child [c]. *)
Fixpoint following_of (c : node) (l : list node) : list node :=
  match l with
  | [] => []
  | x :: l' => if decide (x = c) then l' else following_of c l'
  end.

Fixpoint preceding_of (c : node) (l : list node) : list node :=
  match l with
  | [] => []
  | x :: l' => if decide (x = c) then [] else x :: preceding_of c l'
  end.

(** What a document refuses as a child: a second element, an element
    before the doctype, a second doctype, a doctype after the element, and
    a fragment that would bring any of these or a text node. *)
Definition document_refuses (s : Store) (parent new : node) (child : option node)
    : bool :=
  let siblings := children_of s parent in
  let has_element := existsb (is_kind ElementNode s) in
  let has_doctype := existsb (is_kind DocumentTypeNode s) in
  let element_in_the_way :=
    has_element siblings ||
    match child with
    | Some c => is_kind DocumentTypeNode s c || has_doctype (following_of c siblings)
    | None => false
    end in
  match kind_of s new with
  | DocumentFragmentNode =>
      let elements := filter (λ n, kind_of s n = ElementNode) (children_of s new) in
      bool_decide (1 < length elements) ||
      existsb (is_kind TextNode s) (children_of s new) ||
      bool_decide (length elements = 1) && element_in_the_way
  | ElementNode => element_in_the_way
  | DocumentTypeNode =>
      has_doctype siblings ||
      match child with
      | Some c => has_element (preceding_of c siblings)
      | None => has_element siblings
      end
  | _ => false
  end.

(** "Ensure pre-insertion validity" of [new] into [parent] before [child]:
    the exception the DOM raises, if any. *)
Definition pre_insertion_error (s : Store) (parent new : node) (child : option node)
    : option JsError :=
  if negb (is_kind DocumentNode s parent || is_kind DocumentFragmentNode s parent
           || is_kind ElementNode s parent) then
    Some (DOMException "HierarchyRequestError")
  else if is_inclusive_ancestor s new parent then
    Some (DOMException "HierarchyRequestError")
  else if negb (is_child_of s parent child) then
    Some (DOMException "NotFoundError")
  else if negb (is_kind DocumentFragmentNode s new || is_kind DocumentTypeNode s new
                || is_kind ElementNode s new || is_kind TextNode s new
                || is_kind CommentNode s new) then
    Some (DOMException "HierarchyRequestError")
  else if is_kind TextNode s new && is_kind DocumentNode s parent
          || is_kind DocumentTypeNode s new && negb (is_kind DocumentNode s parent) then
    Some (DOMException "HierarchyRequestError")
  else if is_kind DocumentNode s parent && document_refuses s parent new child then
    Some (DOMException "HierarchyRequestError")
  else None.

(** Adopt [n] (it leaves the parent it had) and put it among the children
    of [parent] before [referenceChild]. *)
Definition insert_one (parent : node) (referenceChild : option node)
    (s : Store) (n : node) : Store :=
  let s1 := detach n s in
  set_parent n (Some parent)
    (set_children parent (insert_at n referenceChild (children_of s1 parent)) s1).

(** [parent.insertBefore(new, child)]: after the validity check, if
    [child] is [new] itself the reference becomes its next sibling; what is
    inserted before the reference is [new], or, when [new] is a document
    fragment, its children in their order (the fragment is left empty). *)
Definition insertBefore (parent new : node) (child : option node)
    : M Store unit := λ s,
  match pre_insertion_error s parent new child with
  | Some e => (Throw e, s)
  | None =>
      let referenceChild :=
        if decide (child = Some new) then nextSibling s new else child in
      let nodes :=
        if is_kind DocumentFragmentNode s new then children_of s new else [new] in
      (Ok (), foldl (insert_one parent referenceChild) s nodes)
  end.

(** [parent.removeChild(child)] *)
Definition removeChild (parent child : node) : M Store unit := λ s,
  if decide (parent_of s child = Some parent) then (Ok (), detach child s)
  else (Throw (DOMException "NotFoundError"), s).

(** *** The DOM [TreeWalker]

    [createTreeWalker(root, whatToShow, filter)]: the walker stands on
    [currentNode] (initially the root) and [nextNode] moves it to the next
    node in document order, inside the root, that the filter accepts
    ([whatToShow] is folded into [acceptNode]).  A rejected node's subtree is
    skipped, a skipped node's subtree is still visited. *)
Inductive FilterResult := FILTER_ACCEPT | FILTER_REJECT | FILTER_SKIP.

Record TreeWalker := mkTreeWalker {
  root : node;
  currentNode : node;
  acceptNode : Store → node → FilterResult
}.

Definition createTreeWalker (root : node)
    (acceptNode : Store → node → FilterResult) : TreeWalker :=
  mkTreeWalker root root acceptNode.

(** The node following [temporary] in document order when its subtree is
    skipped: its next sibling, or that of the closest ancestor that has
    one, without leaving the root. *)
Fixpoint following_skipping_children (fuel : nat) (s : Store) (root temporary : node)
    : option node :=
  if decide (temporary = root) then None
  else match nextSibling s temporary with
       | Some sibling => Some sibling
       | None =>
           match fuel, parent_of s temporary with
           | S k, Some p => following_skipping_children k s root p
           | _, _ => None
           end
       end.

Fixpoint traverse (fuel : nat) (s : Store) (w : TreeWalker) (n : node)
    (r : FilterResult) : option node :=
  match fuel with
  | O => None
  | S k =>
      let candidate :=
        match r, firstChild s n with
        | FILTER_REJECT, _ | _, None =>
            following_skipping_children (size s) s (root w) n
        | _, Some child => Some child
        end in
      match candidate with
      | None => None
      | Some c =>
          match acceptNode w s c with
          | FILTER_ACCEPT => Some c
          | r' => traverse k s w c r'
          end
      end
  end.

(** [walker.nextNode()]: the walker moves only when a node is found.  A
    traversal visits every node at most once, hence the bound. *)
Definition nextNode (w : TreeWalker) (s : Store) : option node * TreeWalker :=
  match traverse (size s) s w (currentNode w) FILTER_ACCEPT with
  | Some n => (Some n, mkTreeWalker (root w) n (acceptNode w))
  | None => (None, w)
  end.

(** *** Well-formedness of a store

    Every node listed as a child points back to its parent. *)
Definition children_consistent (s : Store) : Prop :=
  ∀ q n, n ∈ children_of s q → parent_of s n = Some q.

(** [is_parent s n p]: [p] is the parent of [n]; its reflexive-transitive
    closure from [n] reaches the inclusive ancestors of [n]. *)
Definition is_parent (s : Store) (n p : node) : Prop := parent_of s n = Some p.

Definition inclusive_ancestor (s : Store) (a n : node) : Prop :=
  rtc (is_parent s) n a.

(** A store is well formed when, besides, no child is listed twice. *)
Definition well_formed (s : Store) : Prop :=
  children_consistent s ∧ ∀ q, NoDup (children_of s q).

(** Executable checks of these conditions, for concrete stores. *)
Definition consistentb (s : Store) : bool :=
  bool_decide (map_Forall
    (λ q d, Forall (λ n, parent_of s n = Some q) (childNodes d)) s).

Definition well_formedb (s : Store) : bool :=
  consistentb s && bool_decide (map_Forall (λ _ d, NoDup (childNodes d)) s).

Fixpoint ancestor_chain (fuel : nat) (s : Store) (n : node) : option (list node) :=
  match parent_of s n with
  | None => Some [n]
  | Some p =>
      match fuel with
      | O => None
      | S k => (n ::.) <$> ancestor_chain k s p
      end
  end.

(** The kinds of the nodes the filters handle: a parent that is an
    element or a fragment has no rule of its own about its children, and
    elements, text and comments can be children of such a parent. *)
Definition container_kind (k : NodeKind) : Prop :=
  k = ElementNode ∨ k = DocumentFragmentNode.

Definition content_kind (k : NodeKind) : Prop :=
  k = ElementNode ∨ k = TextNode ∨ k = CommentNode.

(** Build a store from a list of [(node, kind, parent, children)] entries. *)
Definition store_of (l : list (node * (NodeKind * option node * list node)))
    : Store :=
  list_to_map (prod_map id (λ d, mkNode d.1.1 d.1.2 d.2) <$> l).

End DOM.

(** ** [node-filter.ts] *)

Module NodeFilter.
Import DOM.

Section Executor.

(** The walker a filter creates is any object with a [nextNode] method; its
    state is threaded through the loop. *)
Context {Walker : Type}.
Variable walkerNext : Walker → Store → option node * Walker.

(** [interface INodeFilter] *)
Record INodeFilter := mkNodeFilter {
  createFilterTreeWalker : node → Store → Walker;
  filter : node → M Store (option (list node))
}.

(** [currentNode.parentNode?.insertBefore(replacementNode, currentNode)] *)
Definition insertReplacement (currentNode replacementNode : node)
    : M Store unit := λ s,
  match parent_of s currentNode with
  | Some parent => insertBefore parent replacementNode (Some currentNode) s
  | None => (Ok (), s)
  end.

(** [for (const replacementNode of replacementNodes) { ... }] *)
Fixpoint insertReplacements (currentNode : node) (replacementNodes : list node)
    : M Store unit :=
  match replacementNodes with
  | [] => ret ()
  | replacementNode :: rest =>
      (insertReplacement currentNode replacementNode ;;
       insertReplacements currentNode rest)%js
  end.

(** [currentNode.parentNode?.removeChild(currentNode)] *)
Definition removeCurrent (currentNode : node) : M Store unit := λ s,
  match parent_of s currentNode with
  | Some parent => removeChild parent currentNode s
  | None => (Ok (), s)
  end.

(** [walker.nextNode()] as a step of the monad: it reads the tree. *)
Definition callNextNode (walker : Walker) : M Store (option node * Walker) :=
  λ s, (Ok (walkerNext walker s), s).

(** The body of the [while] loop of [applyNodeFilter] for a non-null
    [textNode]; it yields the values of [textNode] and of the walker for
    the next iteration. *)
Definition loopBody (nodeFilter : INodeFilter) (walker : Walker) (textNode : node)
    : M Store (option node * Walker) :=
  (replacementNodes <- filter nodeFilter textNode ;;
   let currentNode := textNode in
   next <- callNextNode walker ;;
   match replacementNodes with
   | None => ret next
   | Some replacementNodes =>
       insertReplacements currentNode replacementNodes ;;
       removeCurrent currentNode ;;
       ret next
   end)%js.

(** [while (textNode !== null) { ... }]; [None] when the fuel runs out. *)
Fixpoint whileLoop (fuel : nat) (nodeFilter : INodeFilter) (walker : Walker)
    (textNode : option node) (s : Store) : option (result unit * Store) :=
  match textNode with
  | None => Some (Ok (), s)
  | Some n =>
      match fuel with
      | O => None
      | S fuel' =>
          match loopBody nodeFilter walker n s with
          | (Ok (textNode', walker'), s') =>
              whileLoop fuel' nodeFilter walker' textNode' s'
          | (Throw e, s') => Some (Throw e, s')
          end
      end
  end.

(** The loop variables after [k] completed iterations, when the loop gets
    that far. *)
Fixpoint iterations (k : nat) (nodeFilter : INodeFilter) (walker : Walker)
    (textNode : option node) (s : Store) : option (option node * Walker * Store) :=
  match k with
  | O => Some (textNode, walker, s)
  | S k' =>
      match textNode with
      | None => None
      | Some n =>
          match loopBody nodeFilter walker n s with
          | (Ok (textNode', walker'), s') =>
              iterations k' nodeFilter walker' textNode' s'
          | (Throw _, _) => None
          end
      end
  end.

(** The walker runs out within [k] calls of [nextNode] on a tree that
    stays as it is. *)
Fixpoint exhausted_within (k : nat) (walker : Walker) (textNode : option node)
    (s : Store) : Prop :=
  match textNode with
  | None => True
  | Some _ =>
      match k with
      | O => False
      | S k' =>
          exhausted_within k' (walkerNext walker s).2 (walkerNext walker s).1 s
      end
  end.

Definition applyNodeFilter (fuel : nat) (nodeFilter : INodeFilter) (mdDoc : node)
    (s : Store) : option (result unit * Store) :=
  let walker := createFilterTreeWalker nodeFilter mdDoc s in
  let '(textNode, walker) := walkerNext walker s in
  whileLoop fuel nodeFilter walker textNode s.

(** [for (const nodeFilter of nodeFilters) { await applyNodeFilter(...) }] *)
Fixpoint forEachFilter (fuel : nat) (nodeFilters : list INodeFilter) (mdDoc : node)
    (s : Store) : option (result unit * Store) :=
  match nodeFilters with
  | [] => Some (Ok (), s)
  | nodeFilter :: rest =>
      match applyNodeFilter fuel nodeFilter mdDoc s with
      | Some (Ok _, s') => forEachFilter fuel rest mdDoc s'
      | Some (Throw e, s') => Some (Throw e, s')
      | None => None
      end
  end.

(** The parser and the serializer are the browser's. *)
Variable parseFromString : string → node * Store.
Variable innerHTML : Store → node → string.

Definition applyNodeFilters (fuel : nat) (nodeFilters : list INodeFilter)
    (parsedMarkdown : string) : option (result string) :=
  let '(mdDoc, s) := parseFromString parsedMarkdown in
  match forEachFilter fuel nodeFilters mdDoc s with
  | Some (Ok _, s') => Some (Ok (innerHTML s' mdDoc))
  | Some (Throw e, _) => Some (Throw e)
  | None => None
  end.

End Executor.

(** *** The pipeline builder *)

(** JavaScript objects are compared by reference; a heap hands out fresh
    references. *)
Definition objref := nat.
Definition Heap := nat.

(** The nine filter classes with their constructor arguments. *)
Inductive FilterClass :=
  | IssueMentionFilter (repository : objref)
  | IssueLinkFilter (repository : objref)
  | EmojiFilter (emoji : objref)
  | TeamMentionFilter (repository : objref)
  | MentionFilter (repository : objref)
  | CommitMentionFilter (repository : objref)
  | CommitMentionLinkFilter (repository : objref)
  | VideoTagFilter
  | VideoLinkFilter.

(** A filter instance is a fresh object of one of the classes; the pipe is
    a (read-only) array object holding instances. *)
Record FilterInstance := mkInstance {
  instanceRef : objref;
  instanceOf : FilterClass
}.

Record FilterArray := mkArray {
  arrayRef : objref;
  elements : list FilterInstance
}.

(** [new C(...)] *)
Definition new (c : FilterClass) : M Heap FilterInstance :=
  λ h, (Ok (mkInstance h c), S h).

(** [[e1, ..., en]] once the elements are evaluated *)
Definition newArray (l : list FilterInstance) : M Heap FilterArray :=
  λ h, (Ok (mkArray h l), S h).

(** The arrow function handed to [memoizeOne]. *)
Definition buildPipe (args : objref * objref) : M Heap FilterArray :=
  let '(emoji, repository) := args in
  (f1 <- new (IssueMentionFilter repository) ;;
   f2 <- new (IssueLinkFilter repository) ;;
   f3 <- new (EmojiFilter emoji) ;;
   f4 <- new (TeamMentionFilter repository) ;;
   f5 <- new (MentionFilter repository) ;;
   f6 <- new (CommitMentionFilter repository) ;;
   f7 <- new (CommitMentionLinkFilter repository) ;;
   f8 <- new VideoTagFilter ;;
   f9 <- new VideoLinkFilter ;;
   newArray [f1; f2; f3; f4; f5; f6; f7; f8; f9])%js.

Record MemoCache (A B : Type) := mkCache {
  lastArgs : A;
  lastResult : B
}.
Arguments mkCache {A B} lastArgs lastResult.
Arguments lastArgs {A B} _.
Arguments lastResult {A B} _.

(** Modelled from the spec: [memoizeOne] of the memoize-one package, which
    the sources import and do not contain.  "The builder memoizes on strict
    identity/equality of its last-seen argument pair: repeated calls with an
    unchanged pair return the same pipeline instance; a changed pair
    invalidates the cache and rebuilds.  Only the most recent argument pair
    is remembered (cache depth 1)."  A call that raises leaves the cache as
    it was. *)
Definition memoizeOne {S A B : Type} `{EqDecision A} (resultFn : A → M S B)
    (newArgs : A) : M (option (MemoCache A B) * S) B := λ st,
  let recompute :=
    match resultFn newArgs st.2 with
    | (Ok lastResult, s') => (Ok lastResult, (Some (mkCache newArgs lastResult), s'))
    | (Throw e, s') => (Throw e, (st.1, s'))
    end in
  match st.1 with
  | Some cache =>
      if decide (newArgs = lastArgs cache) then (Ok (lastResult cache), st)
      else recompute
  | None => recompute
  end.

Definition BuilderState : Type :=
  option (MemoCache (objref * objref) FilterArray) * Heap.

Definition buildCustomMarkDownNodeFilterPipe (emoji repository : objref)
    : M BuilderState FilterArray :=
  memoizeOne buildPipe (emoji, repository).

(** The states of the module: the cache starts empty and changes only
    through calls of the builder. *)
Inductive reachable : BuilderState → Prop :=
  | reachable_init h : reachable (None, h)
  | reachable_call st emoji repository :
      reachable st →
      reachable (buildCustomMarkDownNodeFilterPipe emoji repository st).2.

Definition classes (a : FilterArray) : list FilterClass :=
  instanceOf <$> elements a.

Definition refs (a : FilterArray) : list objref :=
  arrayRef a :: (instanceRef <$> elements a).

(** The invariant of the cache: what it holds was built by [buildPipe] for
    the cached pair, from references handed out before. *)
Definition expected_classes (args : objref * objref) : list FilterClass :=
  [IssueMentionFilter args.2; IssueLinkFilter args.2; EmojiFilter args.1;
   TeamMentionFilter args.2; MentionFilter args.2; CommitMentionFilter args.2;
   CommitMentionLinkFilter args.2; VideoTagFilter; VideoLinkFilter].

Definition cache_built (st : BuilderState) : Prop :=
  ∀ c, st.1 = Some c →
    classes (lastResult c) = expected_classes (lastArgs c) ∧
    ∀ x, x ∈ refs (lastResult c) → x < st.2.

End NodeFilter.

(** *** A small document and three filters, for closed examples

    [#1] is the document, [#2] its element, [#3], [#4] and [#5] the text
    nodes of the element.  Text nodes are the nodes without children. *)
Module NodeFilterExample.
Import DOM.

Definition doc : Store :=
  store_of [(1, (DocumentNode, None, [2])); (2, (ElementNode, Some 1, [3; 4; 5]));
            (3, (TextNode, Some 2, [])); (4, (TextNode, Some 2, []));
            (5, (TextNode, Some 2, []))]%positive.

Definition acceptText (s : Store) (n : node) : FilterResult :=
  match children_of s n with
  | [] => FILTER_ACCEPT
  | _ => FILTER_SKIP
  end.

Definition textWalker (mdDoc : node) (s : Store) : TreeWalker :=
  createTreeWalker mdDoc acceptText.

(** Matches the text node [#4] and replaces it by three new nodes. *)
Definition mentionFilter : @NodeFilter.INodeFilter TreeWalker :=
  NodeFilter.mkNodeFilter textWalker
    (λ n s, (Ok (if decide (n = 4%positive)
                 then Some [10; 11; 12]%positive else None), s)).

(** Matches nothing; its lookup fails at the text node [#5]. *)
Definition failingFilter : @NodeFilter.INodeFilter TreeWalker :=
  NodeFilter.mkNodeFilter textWalker
    (λ n s, if decide (n = 5%positive)
            then (Throw (Rejected "lookup failed"), s) else (Ok None, s)).

(** Matches the text node [#3]. *)
Definition emojiFilter : @NodeFilter.INodeFilter TreeWalker :=
  NodeFilter.mkNodeFilter textWalker
    (λ n s, (Ok (if decide (n = 3%positive)
                 then Some [20]%positive else None), s)).

Definition parseDoc (parsedMarkdown : string) : node * Store := (1%positive, doc).

(** The serializer of the examples lists the children of the body. *)
Definition bodyChildren (s : Store) (mdDoc : node) : list node :=
  match children_of s mdDoc with
  | body :: _ => children_of s body
  | [] => []
  end.

Definition renderBody (s : Store) (mdDoc : node) : string :=
  String.concat " " ((λ n : node, pretty (Npos n)) <$> bodyChildren s mdDoc).

(** Matches the text node [#4] and removes it: no replacement nodes. *)
Definition removingFilter : @NodeFilter.INodeFilter TreeWalker :=
  NodeFilter.mkNodeFilter textWalker
    (λ n s, (Ok (if decide (n = 4%positive) then Some [] else None), s)).

(** Matches the text node [#4]; the second of its replacement nodes is the
    document itself. *)
Definition ancestorFilter : @NodeFilter.INodeFilter TreeWalker :=
  NodeFilter.mkNodeFilter textWalker
    (λ n s, (Ok (if decide (n = 4%positive)
                 then Some [10; 1; 11]%positive else None), s)).

(** Matches the text node [#4]; one replacement node is given twice. *)
Definition repeatingFilter : @NodeFilter.INodeFilter TreeWalker :=
  NodeFilter.mkNodeFilter textWalker
    (λ n s, (Ok (if decide (n = 4%positive)
                 then Some [10; 11; 10]%positive else None), s)).

(** Matches the text node [#4] and gives it back after a new node, as
    if to keep it. *)
Definition keepingFilter : @NodeFilter.INodeFilter TreeWalker :=
  NodeFilter.mkNodeFilter textWalker
    (λ n s, (Ok (if decide (n = 4%positive)
                 then Some [10; 4]%positive else None), s)).

(** Matches every node, also the detached node [#30]. *)
Definition eagerFilter : @NodeFilter.INodeFilter TreeWalker :=
  NodeFilter.mkNodeFilter textWalker (λ n s, (Ok (Some [40]%positive), s)).

(** Matches nothing. *)
Definition idleFilter : @NodeFilter.INodeFilter TreeWalker :=
  NodeFilter.mkNodeFilter textWalker (λ n s, (Ok None, s)).

(** The document with, besides, a detached fragment [#20] that holds an
    element and a text node. *)
Definition docWithFragment : Store :=
  store_of [(1, (DocumentNode, None, [2])); (2, (ElementNode, Some 1, [3; 4; 5]));
            (3, (TextNode, Some 2, [])); (4, (TextNode, Some 2, []));
            (5, (TextNode, Some 2, []));
            (20, (DocumentFragmentNode, None, [21; 22]));
            (21, (ElementNode, Some 20, [])); (22, (TextNode, Some 20, []))]%positive.

(** That store after the fragment was inserted before the text node
    [#4]. *)
Definition fragmentInserted : Store :=
  (insertBefore 2%positive 20%positive (Some 4%positive) docWithFragment).2.

(** The walker of a pass that stands on the text node [#4]. *)
Definition walkerAt4 : TreeWalker := mkTreeWalker 1%positive 4%positive acceptText.

End NodeFilterExample.

(** ** [error-handlers.ts] *)

Module ErrorHandlers.

(** [GitError] of git-kitchen-sink: the classification of a failed git
    command; this file names one member. *)
Inductive GitErrorType :=
  | NotAGitRepository
  | OtherGitError (code : nat).

(** An [Error]; [GitError] is the subclass of [lib/git/core], whose
    [result.gitError] is a classification or null. *)
Inductive Error :=
  | PlainError (message : string)
  | GitError (gitError : option GitErrorType) (message : string).

(** [SelectionType] of [lib/app-state]. *)
Inductive SelectionType :=
  | Repository
  | CloningRepository
  | MissingRepository.

Record RepositoryModel := mkRepository {
  id : nat;
  missing : bool
}.

Record SelectedState := mkSelectedState {
  type : SelectionType;
  repository : RepositoryModel
}.

Record AppState := mkAppState {
  selectedState : option SelectedState
}.

#[global] Instance GitErrorType_eq_dec : EqDecision GitErrorType.
Proof. solve_decision. Defined.
#[global] Instance SelectionType_eq_dec : EqDecision SelectionType.
Proof. solve_decision. Defined.

Section Handlers.

(** The dispatcher and the store act on the application, whose state is
    the [World]; their operations return promises. *)
Context {World : Type}.

Record Dispatcher := mkDispatcher {
  presentError : Error → M World unit;
  updateRepositoryMissing : RepositoryModel → bool → M World unit
}.

Record AppStore := mkAppStore {
  getState : World → AppState
}.

Definition ErrorHandler : Type := Error → Dispatcher → M World (option Error).

(** Handle errors by presenting them. *)
Definition defaultErrorHandler (error : Error) (dispatcher : Dispatcher)
    : M World (option Error) :=
  (presentError dispatcher error ;;
   ret None)%js.

(** [error instanceof GitError &&
     error.result.gitError === GitErrorType.NotAGitRepository] *)
Definition isNotAGitRepository (error : Error) : bool :=
  match error with
  | GitError gitError _ => bool_decide (gitError = Some NotAGitRepository)
  | PlainError _ => false
  end.

(** Create a new missing repository error handler with the given AppStore. *)
Definition missingRepositoryHandler (appStore : AppStore) : ErrorHandler :=
  λ error dispatcher w,
    let appState := getState appStore w in
    match selectedState appState with
    | None => ret (Some error) w
    | Some selectedState =>
        if bool_decide (type selectedState ≠ MissingRepository) &&
           bool_decide (type selectedState ≠ Repository)
        then ret (Some error) w
        else
          let repository := repository selectedState in
          if missing repository then ret None w
          else
            let missing := isNotAGitRepository error in
            if missing then
              (updateRepositoryMissing dispatcher repository true ;;
               ret None)%js w
            else ret (Some error) w
    end.

(** The condition under which the handler settles the error: there is a
    selection of type [Repository] or [MissingRepository], and its
    repository is already marked missing or the error says "not a git
    repository". *)
Definition isRepositorySelection (t : SelectionType) : bool :=
  bool_decide (t = Repository) || bool_decide (t = MissingRepository).

Definition settles (appState : AppState) (error : Error) : bool :=
  match selectedState appState with
  | Some selectedState =>
      isRepositorySelection (type selectedState) &&
      (missing (repository selectedState) || isNotAGitRepository error)
  | None => false
  end.

End Handlers.

(** *** An application whose state is its selection and a log of what the
    dispatcher was asked, for closed examples *)

Inductive DispatcherCall :=
  | PresentedError (error : Error)
  | UpdatedRepositoryMissing (repository : RepositoryModel) (missing : bool).

Record LoggedWorld := mkWorld {
  selection : option SelectedState;
  calls : list DispatcherCall
}.

Definition loggingDispatcher : @Dispatcher LoggedWorld :=
  mkDispatcher
    (λ error w, (Ok (), mkWorld (selection w) (calls w ++ [PresentedError error])))
    (λ repository missing w,
       (Ok (), mkWorld (selection w)
                 (calls w ++ [UpdatedRepositoryMissing repository missing]))).

Definition loggedStore : @AppStore LoggedWorld :=
  mkAppStore (λ w, mkAppState (selection w)).

(** A repository is selected; it is, or is not yet, marked missing. *)
Definition selectedMissing : LoggedWorld :=
  mkWorld (Some (mkSelectedState MissingRepository (mkRepository 1 true))) [].

Definition selectedPresent : LoggedWorld :=
  mkWorld (Some (mkSelectedState Repository (mkRepository 1 false))) [].

End ErrorHandlers.

(** ** The date formatter *)

Module FormatDate.

Definition defaultLocale : string := "en-US".

(** [string | string[]], the locales argument of a formatter *)
Inductive Locales :=
  | Locale (l : string)
  | LocaleList (ls : list string).

(** The time value of a [Date]: NaN for an invalid date, else a number of
    milliseconds. *)
Inductive TimeValue :=
  | NaN
  | Millis (t : Z).

Record Date := mkDate {
  valueOf : TimeValue
}.

Definition isNaN (v : TimeValue) : bool :=
  match v with
  | NaN => true
  | Millis _ => false
  end.

(** The [region] field of the schema the bcp-47 parser returns:
    [string | null | undefined]. *)
Inductive Region :=
  | RegionUndefined
  | RegionNull
  | RegionTag (subtag : string).

Record Schema := mkSchema {
  region : Region
}.

(** [log.error(message)] and [log.error(message, e)] *)
Inductive LogEntry :=
  | LogError (message : string) (detail : option JsError).

(** [s.replaceAll(pattern, replacement)] for one-character strings *)
Fixpoint replaceAll (s : string) (pattern replacement : ascii) : string :=
  match s with
  | EmptyString => EmptyString
  | String c s' =>
      String (if Ascii.eqb c pattern then replacement else c)
             (replaceAll s' pattern replacement)
  end.

Section Formatting.

(** The collaborators: the bcp-47 parser (called with [forgiving: true]),
    [Intl.DateTimeFormat] and the formatter's [format], [JSON.stringify] of
    the argument list, and the LRU cache handed to [mem]. *)
Context {Options Formatter Cache : Type}.
Variable parse : string → result Schema.
Variable DateTimeFormat : option Locales → Options → result Formatter.
Variable format : Formatter → Date → result string.
Variable cacheKey : Locales → Options → string.
Variable cacheGet : string → Cache → option Formatter * Cache.
Variable cacheSet : string → Formatter → Cache → Cache.

(** What was asked of [Intl]. *)
Inductive IntlCall :=
  | Constructed (locales : option Locales) (options : Options)
  | Formatted (formatter : Formatter) (date : Date).

(** The module's variables ([dateLocale], the cache of formatters), the log
    and the calls made to [Intl]. *)
Record State := mkState {
  dateLocale : option string;
  formatters : Cache;
  logged : list LogEntry;
  intlCalls : list IntlCall
}.

Definition set_dateLocale (l : option string) (st : State) : State :=
  mkState l (formatters st) (logged st) (intlCalls st).

Definition set_formatters (c : Cache) (st : State) : State :=
  mkState (dateLocale st) c (logged st) (intlCalls st).

Definition log_error (message : string) (detail : option JsError) (st : State)
    : State :=
  mkState (dateLocale st) (formatters st)
          (logged st ++ [LogError message detail]) (intlCalls st).

Definition record_call (c : IntlCall) (st : State) : State :=
  mkState (dateLocale st) (formatters st) (logged st) (intlCalls st ++ [c]).

(** [Intl.DateTimeFormat(locales, options)] *)
Definition construct (locales : option Locales) (options : Options)
    : M State Formatter := λ st,
  (DateTimeFormat locales options, record_call (Constructed locales options) st).

(** The function handed to [mem]:
    [try { return Intl.DateTimeFormat(locale, options) }
     catch (e) { return Intl.DateTimeFormat(undefined, options) }] *)
Definition newDateFormatter (locale : Locales) (options : Options)
    : M State Formatter := λ st,
  match construct (Some locale) options st with
  | (Ok formatter, st') => (Ok formatter, st')
  | (Throw _, st') => construct None options st'
  end.

(** [mem(fn, { cache, cacheKey })]: look the key up, else call the function
    and store its result. *)
Definition getDateFormatter (locale : Locales) (options : Options)
    : M State Formatter := λ st,
  let key := cacheKey locale options in
  match cacheGet key (formatters st) with
  | (Some formatter, cache) => (Ok formatter, set_formatters cache st)
  | (None, cache) =>
      match newDateFormatter locale options (set_formatters cache st) with
      | (Ok formatter, st') =>
          (Ok formatter, set_formatters (cacheSet key formatter (formatters st')) st')
      | (Throw e, st') => (Throw e, st')
      end
  end.

(** [formatter.format(date)] *)
Definition callFormat (formatter : Formatter) (date : Date) : M State string :=
  λ st, (format formatter date, record_call (Formatted formatter date) st).

(** [dateLocale ? [dateLocale, defaultLocale] : defaultLocale]: undefined
    and the empty string are falsy. *)
Definition localesFor (dateLocale : option string) : Locales :=
  match dateLocale with
  | Some l => if bool_decide (l = "") then Locale defaultLocale
              else LocaleList [l; defaultLocale]
  | None => Locale defaultLocale
  end.

Definition formatDate (date : Date) (options : Options) : M State string :=
  λ st,
    let locale := localesFor (dateLocale st) in
    if isNaN (valueOf date) then (Ok "Invalid date", st)
    else
      (formatter <- getDateFormatter locale options ;;
       callFormat formatter date)%js st.

Definition setDateLocale (locale : option string) : M State (option string) :=
  λ st,
    match locale with
    | None => (Ok None, set_dateLocale None st)
    | Some locale =>
        let st' :=
          match parse (replaceAll locale "_" "-") with
          | Ok schema =>
              match region schema with
              | RegionUndefined =>
                  log_error ("Failed parsing locale from " +:+ locale) None
                    (set_dateLocale None st)
              | RegionNull => set_dateLocale (Some ("en-" +:+ "US")) st
              | RegionTag region => set_dateLocale (Some ("en-" +:+ region)) st
              end
          | Throw e => log_error "Failed setting date locale" (Some e) st
          end in
        (Ok (dateLocale st'), st')
    end.

End Formatting.

(** *** Stand-ins for the collaborators, for closed examples *)

Definition is_alpha (c : ascii) : bool :=
  let n := N_of_ascii c in
  ((65 <=? n) && (n <=? 90) || (97 <=? n) && (n <=? 122))%N.

Definition is_digit (c : ascii) : bool :=
  let n := N_of_ascii c in ((48 <=? n) && (n <=? 57))%N.

Definition all_chars (p : ascii → bool) (s : string) : bool :=
  forallb p (list_ascii_of_string s).

Definition is_hyphen (c : ascii) : bool := Ascii.eqb c "-".

(** A region subtag: two letters or three digits. *)
Definition is_region (s : string) : bool :=
  all_chars is_alpha s && bool_decide (String.length s = 2) ||
  all_chars is_digit s && bool_decide (String.length s = 3).

(** [p(value.charCodeAt(i))], false past the end of the string *)
Definition char_at (p : ascii → bool) (l : list ascii) (i : nat) : bool :=
  match l !! i with
  | Some c => p c
  | None => false
  end.

(** [source.slice(from, from + n)] *)
Definition slice (l : list ascii) (from n : nat) : string :=
  string_of_list_ascii (take n (drop from l)).

(** The length of the leading run of letters, counted up to [fuel]. *)
Fixpoint leading_letters (fuel : nat) (l : list ascii) : nat :=
  match fuel, l with
  | S k, c :: l' => if is_alpha c then S (leading_letters k l') else 0
  | _, _ => 0
  end.

(** An extended language subtag at [i]: a hyphen and exactly three letters;
    a fourth one is a failure. *)
Definition extlang_at (l : list ascii) (i : nat) : bool :=
  char_at is_hyphen l i && char_at is_alpha l (i + 1) &&
  char_at is_alpha l (i + 2) && char_at is_alpha l (i + 3) &&
  negb (char_at is_alpha l (i + 4)).

Fixpoint skip_extlangs (fuel : nat) (l : list ascii) (i : nat) : option nat :=
  if extlang_at l i then
    match fuel with
    | O => None
    | S k => skip_extlangs k l (i + 4)
    end
  else Some i.

(** A script subtag at [i]: a hyphen and exactly four letters. *)
Definition script_at (l : list ascii) (i : nat) : bool :=
  char_at is_hyphen l i && char_at is_alpha l (i + 1) &&
  char_at is_alpha l (i + 2) && char_at is_alpha l (i + 3) &&
  char_at is_alpha l (i + 4) && negb (char_at is_alpha l (i + 5)).

(** A region subtag at [i]: a hyphen and exactly two letters, or a hyphen
    and exactly three digits. *)
Definition readRegion (l : list ascii) (i : nat) : Region :=
  if char_at is_hyphen l i then
    if char_at is_alpha l (i + 1) && char_at is_alpha l (i + 2) &&
       negb (char_at is_alpha l (i + 3))
    then RegionTag (slice l (i + 1) 2)
    else if char_at is_digit l (i + 1) && char_at is_digit l (i + 2) &&
            char_at is_digit l (i + 3) && negb (char_at is_digit l (i + 4))
    then RegionTag (slice l (i + 1) 3)
    else RegionNull
  else RegionNull.

(** The subtags of a tag, read as the bcp-47 package reads them with
    [forgiving: true]: a language of two to eight letters, up to three
    extended language subtags after a language of two or three letters, a
    script, a region; what follows the region does not change the region
    that is reported, and a region that is not found is reported as
    null. *)
Definition readSubtags (tag : string) : result Schema :=
  let l := list_ascii_of_string tag in
  let index := leading_letters 9 l in
  if bool_decide (1 < index < 9) then
    match (if bool_decide (index < 4) then skip_extlangs 3 l index
           else Some index) with
    | None => Ok (mkSchema RegionNull)
    | Some index =>
        let index := if script_at l index then index + 5 else index in
        Ok (mkSchema (readRegion l index))
    end
  else Ok (mkSchema RegionNull).

Definition toLowerCase_char (c : ascii) : ascii :=
  let n := N_of_ascii c in
  if ((65 <=? n) && (n <=? 90))%N then ascii_of_N (n + 32) else c.

Fixpoint toLowerCase (s : string) : string :=
  match s with
  | EmptyString => EmptyString
  | String c s' => String (toLowerCase_char c) (toLowerCase s')
  end.

(** The package's table of grandfathered tags, each with the tag that
    replaces it, if there is one. *)
Definition normal : list (string * option string) :=
  [ ("en-gb-oed", Some "en-GB-oxendict");
    ("i-ami", Some "ami"); ("i-bnn", Some "bnn"); ("i-default", None);
    ("i-enochian", None); ("i-hak", Some "hak"); ("i-klingon", Some "tlh");
    ("i-lux", Some "lb"); ("i-mingo", None); ("i-navajo", Some "nv");
    ("i-pwn", Some "pwn"); ("i-tao", Some "tao"); ("i-tay", Some "tay");
    ("i-tsu", Some "tsu"); ("sgn-be-fr", Some "sfb");
    ("sgn-be-nl", Some "vgt"); ("sgn-ch-de", Some "sgg");
    ("art-lojban", Some "jbo"); ("cel-gaulish", None); ("no-bok", Some "nb");
    ("no-nyn", Some "nn"); ("zh-guoyu", Some "cmn"); ("zh-hakka", Some "hak");
    ("zh-min", None); ("zh-min-nan", Some "nan"); ("zh-xiang", Some "hsn") ].

Fixpoint normalFind (value : string) (table : list (string * option string))
    : option (option string) :=
  match table with
  | [] => None
  | (k, replacement) :: table' =>
      if String.eqb k value then Some replacement else normalFind value table'
  end.

(** A language tag reader after the bcp-47 package, called with
    [forgiving: true]: a grandfathered tag is read as the tag that replaces
    it, and has no region when nothing replaces it; any other tag is read
    subtag by subtag. *)
Definition readTag (tag : string) : result Schema :=
  match normalFind (toLowerCase tag) normal with
  | Some (Some replacement) => readSubtags replacement
  | Some None => Ok (mkSchema RegionNull)
  | None => readSubtags tag
  end.

(** A formatter that remembers the locales it was made for, options that
    are one string, and an association list as the cache. *)
Definition showLocales (l : option Locales) : string :=
  match l with
  | None => "(default)"
  | Some (Locale l) => l
  | Some (LocaleList ls) => String.concat "," ls
  end.

Definition makeFormatter (l : option Locales) (options : string)
    : result (option Locales * string) := Ok (l, options).

Definition showDate (formatter : option Locales * string) (date : Date)
    : result string :=
  match valueOf date with
  | Millis t => Ok (pretty t +:+ " [" +:+ showLocales formatter.1 +:+ "]")
  | NaN => Throw (Rejected "RangeError: Invalid time value")
  end.

Definition keyOf (l : Locales) (options : string) : string :=
  showLocales (Some l) +:+ "|" +:+ options.

Fixpoint assocFind (key : string) (c : list (string * (option Locales * string)))
    : option (option Locales * string) :=
  match c with
  | [] => None
  | (k, formatter) :: c' =>
      if String.eqb k key then Some formatter else assocFind key c'
  end.

Definition assocGet (key : string) (c : list (string * (option Locales * string)))
    : option (option Locales * string) * list (string * (option Locales * string)) :=
  (assocFind key c, c).

Definition assocSet (key : string) (f : option Locales * string)
    (c : list (string * (option Locales * string)))
    : list (string * (option Locales * string)) :=
  (key, f) :: c.

Definition ExampleState : Type :=
  @State string (option Locales * string) (list (string * (option Locales * string))).

Definition initialState : ExampleState := mkState None [] [] [].

Definition exampleSetDateLocale (locale : option string)
    : M ExampleState (option string) :=
  setDateLocale readTag locale.

Definition exampleFormatDate (date : Date) (options : string)
    : M ExampleState string :=
  formatDate makeFormatter showDate keyOf assocGet assocSet date options.

(** The state after [setDateLocale("fr_CA")]. *)
Definition canadianState : ExampleState :=
  (exampleSetDateLocale (Some "fr_CA") initialState).2.

(** A constructor of formatters that refuses the options "invalid" for
    every locale, and every locale tag that is empty or has a character
    other than a letter, a digit or a hyphen (an underscore, for one); it
    does not check the rest of the grammar of language tags. *)
Definition tag_characters_ok (tag : string) : bool :=
  negb (String.eqb tag "") &&
  all_chars (λ c, is_alpha c || is_digit c || is_hyphen c) tag.

Definition tags_of (l : option Locales) : list string :=
  match l with
  | None => []
  | Some (Locale tag) => [tag]
  | Some (LocaleList tags) => tags
  end.

Definition pickyFormatter (l : option Locales) (options : string)
    : result (option Locales * string) :=
  if bool_decide (options = "invalid") then
    Throw (Rejected "RangeError: invalid option")
  else if forallb tag_characters_ok (tags_of l) then Ok (l, options)
  else Throw (Rejected "RangeError: incorrect locale information provided").

(** [dateLocale] is undefined or an English locale: "en-" and a region
    subtag, two letters or three digits. *)
Definition english (dateLocale : option string) : Prop :=
  dateLocale = None ∨
  ∃ region, dateLocale = Some ("en-" +:+ region) ∧ is_region region = true.

End FormatDate.

(** * Properties *)

(** Closed decidable side conditions are settled by evaluation. *)
Ltac by_decide := apply (bool_decide_unpack _); vm_compute; exact I.

(** ** The monad *)

Lemma bind_ok {S A B} (m : M S A) (k : A → M S B) s a s' :
  m s = (Ok a, s') → bind m k s = k a s'.
Proof. intros H. unfold bind. by rewrite H. Qed.

Lemma bind_throw {S A B} (m : M S A) (k : A → M S B) s e s' :
  m s = (Throw e, s') → bind m k s = (Throw e, s').
Proof. intros H. unfold bind. by rewrite H. Qed.

(** ** The DOM store *)

Module DOMFacts.
Import DOM.

Lemma parent_of_set_parent s n p m :
  parent_of (set_parent n p s) m = if decide (m = n) then p else parent_of s m.
Proof.
  unfold parent_of, set_parent. case_decide as E.
  - subst. by rewrite lookup_insert_eq.
  - by rewrite lookup_insert_ne.
Qed.

Lemma children_of_set_parent s n p m :
  children_of (set_parent n p s) m = children_of s m.
Proof.
  unfold set_parent. unfold children_of at 1.
  destruct (decide (m = n)) as [->|E].
  - by rewrite lookup_insert_eq.
  - by rewrite lookup_insert_ne.
Qed.

Lemma parent_of_set_children s n l m :
  parent_of (set_children n l s) m = parent_of s m.
Proof.
  unfold set_children. unfold parent_of at 1.
  destruct (decide (m = n)) as [->|E].
  - by rewrite lookup_insert_eq.
  - by rewrite lookup_insert_ne.
Qed.

Lemma children_of_set_children s n l m :
  children_of (set_children n l s) m = if decide (m = n) then l else children_of s m.
Proof.
  unfold children_of, set_children. case_decide as E.
  - subst. by rewrite lookup_insert_eq.
  - by rewrite lookup_insert_ne.
Qed.

Lemma kind_of_set_parent s n p m : kind_of (set_parent n p s) m = kind_of s m.
Proof.
  unfold set_parent. unfold kind_of at 1.
  destruct (decide (m = n)) as [->|E].
  - by rewrite lookup_insert_eq.
  - by rewrite lookup_insert_ne.
Qed.

Lemma kind_of_set_children s n l m : kind_of (set_children n l s) m = kind_of s m.
Proof.
  unfold set_children. unfold kind_of at 1.
  destruct (decide (m = n)) as [->|E].
  - by rewrite lookup_insert_eq.
  - by rewrite lookup_insert_ne.
Qed.

Lemma kind_of_detach s n m : kind_of (detach n s) m = kind_of s m.
Proof.
  unfold detach. destruct (parent_of s n); [|done].
  by rewrite kind_of_set_parent, kind_of_set_children.
Qed.

Lemma parent_of_detach s n m :
  parent_of (detach n s) m = if decide (m = n) then None else parent_of s m.
Proof.
  unfold detach. destruct (parent_of s n) as [p|] eqn:Hp.
  - rewrite parent_of_set_parent, parent_of_set_children. done.
  - case_decide; by subst.
Qed.

Lemma children_of_detach s n q :
  children_of (detach n s) q =
    if decide (parent_of s n = Some q) then filter (λ x, x ≠ n) (children_of s q)
    else children_of s q.
Proof.
  unfold detach. destruct (parent_of s n) as [p|] eqn:Hp.
  - rewrite children_of_set_parent, children_of_set_children.
    repeat case_decide; naive_solver.
  - by rewrite decide_False.
Qed.

Lemma filter_ne_id (n : node) (l : list node) :
  n ∉ l → filter (λ x, x ≠ n) l = l.
Proof.
  intros Hn. induction l as [|x l IH]; [done|].
  rewrite not_elem_of_cons in Hn. destruct Hn as [Hx Hl].
  rewrite filter_cons_True by done. by rewrite IH.
Qed.

(** Under consistency, detaching [n] filters it out of every child list. *)
Lemma children_of_detach_consistent s n q :
  children_consistent s →
  children_of (detach n s) q = filter (λ x, x ≠ n) (children_of s q).
Proof.
  intros Hc. rewrite children_of_detach. case_decide as Hp; [done|].
  symmetry. apply filter_ne_id. intros Hin. apply Hp. by apply Hc.
Qed.

Lemma is_inclusive_ancestor_aux_sound fuel s a n :
  is_inclusive_ancestor_aux fuel s a n = true → inclusive_ancestor s a n.
Proof.
  revert n. induction fuel as [|k IH]; intros n; simpl.
  - rewrite orb_false_r. intros ->%bool_decide_eq_true. apply rtc_refl.
  - intros [->%bool_decide_eq_true|H]%orb_true_iff; [apply rtc_refl|].
    destruct (parent_of s n) as [p|] eqn:Hp; [|done].
    eapply rtc_l; [exact Hp|]. by apply IH.
Qed.

Lemma is_inclusive_ancestor_false s a n :
  ¬ inclusive_ancestor s a n → is_inclusive_ancestor s a n = false.
Proof.
  intros Hn. destruct (is_inclusive_ancestor s a n) eqn:E; [|done].
  exfalso. apply Hn. by eapply is_inclusive_ancestor_aux_sound.
Qed.

Lemma list_insert_before_app (x r : node) (l1 l2 : list node) :
  r ∉ l1 → list_insert_before x r (l1 ++ r :: l2) = l1 ++ x :: r :: l2.
Proof.
  intros Hr. induction l1 as [|y l1 IH]; simpl.
  - by rewrite decide_True.
  - rewrite not_elem_of_cons in Hr. destruct Hr as [Hy Hl].
    rewrite decide_False by done. by rewrite IH.
Qed.

Lemma consistentb_sound s : consistentb s = true → children_consistent s.
Proof.
  intros H%bool_decide_eq_true q n Hin. unfold children_of in Hin.
  destruct (s !! q) as [d|] eqn:E; simpl in Hin; [|by apply elem_of_nil in Hin].
  specialize (H q d E). simpl in H. rewrite Forall_forall in H. by apply H.
Qed.

Lemma well_formedb_sound s : well_formedb s = true → well_formed s.
Proof.
  intros [Hc Hn%bool_decide_eq_true]%andb_true_iff. split.
  - by apply consistentb_sound.
  - intros q. unfold children_of.
    destruct (s !! q) as [d|] eqn:E; simpl; [|apply NoDup_nil_2].
    apply (Hn q d E).
Qed.

Lemma ancestor_chain_complete fuel s n l a :
  ancestor_chain fuel s n = Some l → inclusive_ancestor s a n → a ∈ l.
Proof.
  unfold inclusive_ancestor.
  revert n l. induction fuel as [|k IH]; intros n l; simpl.
  - destruct (parent_of s n) as [p|] eqn:Hp; [done|].
    intros [= <-] [->|(y & Hy & _)]%rtc_inv; [apply list_elem_of_singleton; done|].
    unfold is_parent in Hy. congruence.
  - destruct (parent_of s n) as [p|] eqn:Hp.
    + destruct (ancestor_chain k s p) as [l'|] eqn:Hl; [|done].
      simpl. intros [= <-] [->|(y & Hy & Hrtc)]%rtc_inv.
      * apply elem_of_cons. by left.
      * unfold is_parent in Hy. rewrite Hp in Hy. injection Hy as <-.
        apply elem_of_cons. right. by eapply IH.
    + intros [= <-] [->|(y & Hy & _)]%rtc_inv; [apply list_elem_of_singleton; done|].
      unfold is_parent in Hy. congruence.
Qed.

Lemma not_inclusive_ancestor_by_chain fuel s n l a :
  ancestor_chain fuel s n = Some l → a ∉ l → ¬ inclusive_ancestor s a n.
Proof. intros Hl Ha H. apply Ha. by eapply ancestor_chain_complete. Qed.

Lemma NoDup_app_cons_not_in (x : node) (l1 l2 : list node) :
  NoDup (l1 ++ x :: l2) → (x ∉ l1) ∧ (x ∉ l2).
Proof.
  intros H. apply NoDup_app in H as (_ & H1 & H2).
  apply NoDup_cons in H2 as [H2 _]. split; [|done].
  intros Hin. apply (H1 x Hin). apply elem_of_cons. by left.
Qed.

(** What one [insertBefore] of a node [r] before a child [cur] of [p] does
    to the store, when the DOM accepts it. *)
Lemma insertBefore_before_child s p r cur L R :
  well_formed s →
  container_kind (kind_of s p) →
  content_kind (kind_of s r) →
  parent_of s cur = Some p →
  children_of s p = L ++ cur :: R →
  r ≠ cur →
  ¬ inclusive_ancestor s r p →
  ∃ s',
    insertBefore p r (Some cur) s = (Ok (), s') ∧
    well_formed s' ∧
    (∀ m, kind_of s' m = kind_of s m) ∧
    (∀ m, parent_of s' m = if decide (m = r) then Some p else parent_of s m) ∧
    children_of s' p =
      filter (λ x, x ≠ r) L ++ r :: cur :: filter (λ x, x ≠ r) R ∧
    (∀ q, q ≠ p → children_of s' q = filter (λ x, x ≠ r) (children_of s q)).
Proof.
  intros [Hc Hnd] Hkp Hkr Hpar Hch Hne Hanc.
  assert (HcurLR : (cur ∉ L) ∧ (cur ∉ R)).
  { apply NoDup_app_cons_not_in. rewrite <- Hch. apply Hnd. }
  destruct HcurLR as [HcurL HcurR].
  assert (Hvalid : pre_insertion_error s p r (Some cur) = None).
  { unfold pre_insertion_error, is_kind.
    rewrite (is_inclusive_ancestor_false _ _ _ Hanc).
    unfold is_child_of. rewrite (bool_decide_eq_true_2 _ Hpar).
    destruct Hkp as [-> | ->], Hkr as [-> | [-> | ->]]; reflexivity. }
  assert (Hnodes : (if is_kind DocumentFragmentNode s r
                    then children_of s r else [r]) = [r]).
  { unfold is_kind. destruct Hkr as [-> | [-> | ->]]; reflexivity. }
  unfold insertBefore. rewrite Hvalid, Hnodes.
  rewrite decide_False by congruence.
  simpl. unfold insert_one.
  eexists. split; [reflexivity|].
  assert (Hl : insert_at r (Some cur) (children_of (detach r s) p) =
               filter (λ x, x ≠ r) L ++ r :: cur :: filter (λ x, x ≠ r) R).
  { rewrite children_of_detach_consistent by done. rewrite Hch.
    rewrite filter_app, filter_cons_True by congruence. simpl.
    apply list_insert_before_app. rewrite list_elem_of_filter. tauto. }
  rewrite Hl.
  assert (Hparent : ∀ m,
    parent_of (set_parent r (Some p) (set_children p
      (filter (λ x, x ≠ r) L ++ r :: cur :: filter (λ x, x ≠ r) R) (detach r s))) m =
    if decide (m = r) then Some p else parent_of s m).
  { intros m. rewrite parent_of_set_parent, parent_of_set_children, parent_of_detach.
    by case_decide. }
  assert (Hchildren : ∀ q,
    children_of (set_parent r (Some p) (set_children p
      (filter (λ x, x ≠ r) L ++ r :: cur :: filter (λ x, x ≠ r) R) (detach r s))) q =
    if decide (q = p) then filter (λ x, x ≠ r) L ++ r :: cur :: filter (λ x, x ≠ r) R
    else filter (λ x, x ≠ r) (children_of s q)).
  { intros q. rewrite children_of_set_parent, children_of_set_children.
    case_decide; [done|]. by apply children_of_detach_consistent. }
  split; [split|split; [|split; [exact Hparent|split]]].
  - intros q n. rewrite Hchildren, Hparent.
    destruct (decide (q = p)) as [->|Hq].
    + rewrite elem_of_app, !elem_of_cons, !list_elem_of_filter.
      intros Hin. case_decide as Hn; [done|]. apply Hc. rewrite Hch.
      rewrite elem_of_app, elem_of_cons. tauto.
    + rewrite list_elem_of_filter. intros [Hn Hin].
      rewrite decide_False by done. by apply Hc.
  - intros q. rewrite Hchildren. case_decide as Hq; [|by apply NoDup_filter].
    specialize (Hnd p). rewrite Hch in Hnd.
    assert (Hfilter : filter (λ x, x ≠ r) (L ++ cur :: R)
                      = filter (λ x, x ≠ r) L ++ cur :: filter (λ x, x ≠ r) R).
    { by rewrite filter_app, filter_cons_True by congruence. }
    apply (NoDup_filter (λ x, x ≠ r)) in Hnd. rewrite Hfilter in Hnd.
    apply NoDup_app in Hnd as (HL & Hdisj & HR).
    apply NoDup_app. split; [done|]. split.
    * intros x Hx. rewrite elem_of_cons. intros [->|Hx'].
      -- apply list_elem_of_filter in Hx as [Hx _]. done.
      -- by apply (Hdisj x).
    * apply NoDup_cons. split; [|done].
      rewrite elem_of_cons, list_elem_of_filter. intros [?|[? _]]; done.
  - intros m. by rewrite kind_of_set_parent, kind_of_set_children, kind_of_detach.
  - rewrite Hchildren. by rewrite decide_True.
  - intros q Hq. rewrite Hchildren. by rewrite decide_False.
Qed.

(** Detaching a child keeps the store well formed. *)
Lemma detach_well_formed s n :
  well_formed s → well_formed (detach n s).
Proof.
  intros [Hc Hnd]. split.
  - intros q m. rewrite children_of_detach_consistent by done.
    rewrite list_elem_of_filter, parent_of_detach. intros [Hm Hin].
    rewrite decide_False by done. by apply Hc.
  - intros q. rewrite children_of_detach_consistent by done.
    by apply NoDup_filter.
Qed.

(** Re-parenting a node that is not an ancestor of [p] leaves the ancestors
    of [p] as they were. *)
Lemma inclusive_ancestor_reparent s s' r p p' a :
  (∀ m, parent_of s' m = if decide (m = r) then Some p' else parent_of s m) →
  ¬ inclusive_ancestor s r p →
  inclusive_ancestor s' a p → inclusive_ancestor s a p.
Proof.
  intros Hpar Hr. unfold inclusive_ancestor in *.
  assert (G : ∀ x, rtc (is_parent s) p x → rtc (is_parent s') x a →
                   rtc (is_parent s) x a).
  { intros x Hpx Hxa. revert Hpx.
    induction Hxa as [x|x y z Hxy Hyz IH]; intros Hpx; [apply rtc_refl|].
    unfold is_parent in Hxy. rewrite Hpar in Hxy.
    case_decide as E; [subst; by destruct Hr|].
    eapply rtc_l; [exact Hxy|]. apply IH. eapply rtc_r; [exact Hpx|exact Hxy]. }
  apply G, rtc_refl.
Qed.

End DOMFacts.

(** ** The pipeline executor *)

Module NodeFilterProofs.
Import DOM DOMFacts.

Lemma filter_not_in_nil (l : list node) : filter (λ x, x ∉ @nil node) l = l.
Proof.
  induction l as [|x l IH]; [done|].
  rewrite filter_cons_True by apply not_elem_of_nil. by rewrite IH.
Qed.

Lemma filter_not_in_cons (r : node) (rest l : list node) :
  filter (λ x, x ∉ rest) (filter (λ x, x ≠ r) l) = filter (λ x, x ∉ r :: rest) l.
Proof.
  induction l as [|x l IH]; [done|].
  destruct (decide (x = r)) as [->|Hx].
  - rewrite (filter_cons_False (λ x, x ≠ r)) by (intros H; by apply H).
    rewrite (filter_cons_False (λ x, x ∉ r :: rest)); [done|].
    intros H. apply H. apply elem_of_cons. by left.
  - rewrite (filter_cons_True (λ x, x ≠ r)) by done.
    destruct (decide (x ∈ rest)) as [Hin|Hin].
    + rewrite (filter_cons_False (λ x, x ∉ rest)) by (intros H; by apply H).
      rewrite (filter_cons_False (λ x, x ∉ r :: rest)); [done|].
      intros H. apply H. apply elem_of_cons. by right.
    + rewrite (filter_cons_True (λ x, x ∉ rest)) by done.
      rewrite (filter_cons_True (λ x, x ∉ r :: rest)); [by rewrite IH|].
      rewrite not_elem_of_cons. done.
Qed.

(** The [for] loop over the replacement nodes: every node lands right
    before [cur], in the order of the sequence, and [cur] stays a child of
    [p]. *)
Lemma insertReplacements_before_current cur p reps :
  ∀ s L R,
  well_formed s →
  container_kind (kind_of s p) →
  (∀ r, r ∈ reps → content_kind (kind_of s r)) →
  parent_of s cur = Some p →
  children_of s p = L ++ cur :: R →
  NoDup reps →
  cur ∉ reps →
  (∀ r, r ∈ reps → ¬ inclusive_ancestor s r p) →
  ∃ s',
    NodeFilter.insertReplacements cur reps s = (Ok (), s') ∧
    well_formed s' ∧
    (∀ m, kind_of s' m = kind_of s m) ∧
    (∀ m, parent_of s' m = if decide (m ∈ reps) then Some p else parent_of s m) ∧
    children_of s' p =
      filter (λ x, x ∉ reps) L ++ reps ++ cur :: filter (λ x, x ∉ reps) R ∧
    (∀ q, q ≠ p → children_of s' q = filter (λ x, x ∉ reps) (children_of s q)).
Proof.
  induction reps as [|r rest IH];
    intros s L R Hwf Hkp Hkr Hpar Hch Hnd Hcur Hanc.
  - exists s. split; [done|]. split; [done|]. split; [done|]. split.
    { intros m. case_decide as Hm; [by apply not_elem_of_nil in Hm|done]. }
    split; [by rewrite !filter_not_in_nil|].
    intros q _. by rewrite filter_not_in_nil.
  - apply NoDup_cons in Hnd as [Hr Hnd].
    apply not_elem_of_cons in Hcur as [Hne Hcur].
    destruct (insertBefore_before_child s p r cur L R) as
      (s1 & Hins & Hwf1 & Hk1 & Hpar1 & Hch1 & Hoth1); try done.
    { apply Hkr. apply elem_of_cons. by left. }
    { apply Hanc. apply elem_of_cons. by left. }
    destruct (IH s1 (filter (λ x, x ≠ r) L ++ [r]) (filter (λ x, x ≠ r) R))
      as (s' & Hrest & Hwf' & Hk' & Hpar' & Hch' & Hoth'); try done.
    { by rewrite Hk1. }
    { intros r' Hr'. rewrite Hk1. apply Hkr. apply elem_of_cons. by right. }
    { rewrite Hpar1. case_decide; [congruence|done]. }
    { rewrite Hch1. by rewrite <- app_assoc. }
    { intros r' Hr' Ha. apply (Hanc r'); [apply elem_of_cons; by right|].
      eapply inclusive_ancestor_reparent; [exact Hpar1| |exact Ha].
      apply Hanc. apply elem_of_cons. by left. }
    exists s'. split.
    { change (bind (NodeFilter.insertReplacement cur r)
                (λ _, NodeFilter.insertReplacements cur rest) s = (Ok (), s')).
      erewrite bind_ok; [exact Hrest|].
      unfold NodeFilter.insertReplacement. by rewrite Hpar. }
    split; [done|]. split.
    { intros m. by rewrite Hk', Hk1. }
    split.
    { intros m. rewrite Hpar', Hpar1.
      destruct (decide (m ∈ rest)) as [Hm|Hm].
      - rewrite decide_True; [done|]. apply elem_of_cons. by right.
      - destruct (decide (m = r)) as [->|Hmr].
        + rewrite decide_True; [done|]. apply elem_of_cons. by left.
        + rewrite decide_False; [done|]. by rewrite not_elem_of_cons. }
    split.
    { rewrite Hch'. rewrite filter_app, !filter_not_in_cons.
      rewrite (filter_cons_True (λ x, x ∉ rest)) by done.
      simpl. by rewrite <- app_assoc. }
    intros q Hq. rewrite Hoth', Hoth1 by done. apply filter_not_in_cons.
Qed.

Lemma removeCurrent_detaches s cur p l1 l2 :
  well_formed s →
  parent_of s cur = Some p →
  children_of s p = l1 ++ cur :: l2 →
  NodeFilter.removeCurrent cur s = (Ok (), detach cur s) ∧
  well_formed (detach cur s) ∧
  children_of (detach cur s) p = l1 ++ l2 ∧
  (∀ q, q ≠ p → children_of (detach cur s) q = children_of s q).
Proof.
  intros Hwf Hpar Hch.
  assert (Hcur : (cur ∉ l1) ∧ (cur ∉ l2)).
  { apply NoDup_app_cons_not_in. rewrite <- Hch. apply Hwf. }
  destruct Hcur as [H1 H2].
  split; [|split; [by apply detach_well_formed|split]].
  - unfold NodeFilter.removeCurrent, removeChild. rewrite Hpar.
    by rewrite decide_True.
  - rewrite children_of_detach, decide_True by done. rewrite Hch.
    rewrite filter_app, filter_cons_False by (intros H; by apply H).
    by rewrite !filter_ne_id.
  - intros q Hq. rewrite children_of_detach, decide_False; [done|congruence].
Qed.

(** With [currentNode.parentNode] null, the optional chaining skips both
    the insertions and the removal. *)
Lemma replacement_skipped_without_parent cur reps s :
  parent_of s cur = None →
  NodeFilter.insertReplacements cur reps s = (Ok (), s) ∧
  NodeFilter.removeCurrent cur s = (Ok (), s).
Proof.
  intros Hpar. split.
  - induction reps as [|r rest IH]; [done|].
    change (bind (NodeFilter.insertReplacement cur r)
              (λ _, NodeFilter.insertReplacements cur rest) s = (Ok (), s)).
    erewrite bind_ok; [exact IH|].
    unfold NodeFilter.insertReplacement. by rewrite Hpar.
  - unfold NodeFilter.removeCurrent. by rewrite Hpar.
Qed.

Section Executor.
Context {Walker : Type}.
Variable walkerNext : Walker → Store → option node * Walker.

Abbreviation INodeFilter := (@NodeFilter.INodeFilter Walker).
Abbreviation loopBody := (NodeFilter.loopBody walkerNext).
Abbreviation whileLoop := (NodeFilter.whileLoop walkerNext).
Abbreviation iterations := (NodeFilter.iterations walkerNext).
Abbreviation applyNodeFilter := (NodeFilter.applyNodeFilter walkerNext).
Abbreviation forEachFilter := (NodeFilter.forEachFilter walkerNext).

Lemma loopBody_filter_throws (nodeFilter : INodeFilter) walker textNode s e s1 :
  NodeFilter.filter nodeFilter textNode s = (Throw e, s1) →
  loopBody nodeFilter walker textNode s = (Throw e, s1).
Proof. intros H. unfold NodeFilter.loopBody. by apply bind_throw. Qed.

Lemma loopBody_no_match (nodeFilter : INodeFilter) walker textNode s s1 :
  NodeFilter.filter nodeFilter textNode s = (Ok None, s1) →
  loopBody nodeFilter walker textNode s = (Ok (walkerNext walker s1), s1).
Proof.
  intros H. unfold NodeFilter.loopBody. erewrite bind_ok by exact H. done.
Qed.

Lemma loopBody_match (nodeFilter : INodeFilter) walker textNode s s1 reps :
  NodeFilter.filter nodeFilter textNode s = (Ok (Some reps), s1) →
  loopBody nodeFilter walker textNode s =
    match NodeFilter.insertReplacements textNode reps s1 with
    | (Ok _, s2) =>
        match NodeFilter.removeCurrent textNode s2 with
        | (Ok _, s3) => (Ok (walkerNext walker s1), s3)
        | (Throw e, s3) => (Throw e, s3)
        end
    | (Throw e, s2) => (Throw e, s2)
    end.
Proof.
  intros H. unfold NodeFilter.loopBody. erewrite bind_ok by exact H.
  unfold NodeFilter.callNextNode, bind, ret.
  destruct (NodeFilter.insertReplacements textNode reps s1) as [[[]|e] s2]; [|done].
  by destruct (NodeFilter.removeCurrent textNode s2) as [[[]|e] s3].
Qed.

(** C1, amended.  When the filter returns replacement nodes for
    [textNode], a child of [p] between [L] and [R] in a well-formed tree,
    [p] being an element or a fragment and the replacement nodes being
    distinct elements, text nodes or comments, none of them [textNode] or
    an ancestor of [p], the loop body first inserts all of them, in the
    order of the sequence, right before [textNode], which is still in
    place at that point, and only then removes [textNode]; the surrounding
    children keep their order (a replacement node that was a child
    elsewhere is moved) and the tree stays well formed.  When [textNode]
    has no parent, nothing is inserted and nothing is removed.  When the
    filter returns null the body leaves the tree as the filter left it. *)
Theorem loopBody_replaces_matched_node
    (nodeFilter : INodeFilter) walker textNode s :
  (∀ s1 reps p L R,
     NodeFilter.filter nodeFilter textNode s = (Ok (Some reps), s1) →
     well_formed s1 →
     container_kind (kind_of s1 p) →
     (∀ r, r ∈ reps → content_kind (kind_of s1 r)) →
     parent_of s1 textNode = Some p →
     children_of s1 p = L ++ textNode :: R →
     NoDup reps → textNode ∉ reps →
     (∀ r, r ∈ reps → ¬ inclusive_ancestor s1 r p) →
     ∃ s2 s3,
       NodeFilter.insertReplacements textNode reps s1 = (Ok (), s2) ∧
       children_of s2 p =
         filter (λ x, x ∉ reps) L ++ reps ++ textNode :: filter (λ x, x ∉ reps) R ∧
       NodeFilter.removeCurrent textNode s2 = (Ok (), s3) ∧
       children_of s3 p =
         filter (λ x, x ∉ reps) L ++ reps ++ filter (λ x, x ∉ reps) R ∧
       parent_of s3 textNode = None ∧
       (∀ r, r ∈ reps → parent_of s3 r = Some p) ∧
       (∀ q, q ≠ p → children_of s3 q = filter (λ x, x ∉ reps) (children_of s1 q)) ∧
       well_formed s3 ∧
       loopBody nodeFilter walker textNode s = (Ok (walkerNext walker s1), s3)) ∧
  (∀ s1 reps,
     NodeFilter.filter nodeFilter textNode s = (Ok (Some reps), s1) →
     parent_of s1 textNode = None →
     NodeFilter.insertReplacements textNode reps s1 = (Ok (), s1) ∧
     NodeFilter.removeCurrent textNode s1 = (Ok (), s1) ∧
     loopBody nodeFilter walker textNode s = (Ok (walkerNext walker s1), s1)) ∧
  (∀ s1,
     NodeFilter.filter nodeFilter textNode s = (Ok None, s1) →
     loopBody nodeFilter walker textNode s = (Ok (walkerNext walker s1), s1)).
Proof.
  split; [|split].
  - intros s1 reps p L R Hf Hwf Hkp Hkr Hpar Hch Hnd Hcur Hanc.
    destruct (insertReplacements_before_current textNode p reps s1 L R)
      as (s2 & Hins & Hwf2 & _ & Hpar2 & Hch2 & Hoth2); try done.
    assert (Hpar2cur : parent_of s2 textNode = Some p).
    { rewrite Hpar2. by rewrite decide_False. }
    destruct (removeCurrent_detaches s2 textNode p
                (filter (λ x, x ∉ reps) L ++ reps) (filter (λ x, x ∉ reps) R))
      as (Hrem & Hwf3 & Hch3 & Hoth3); try done.
    { rewrite Hch2. by rewrite <- app_assoc. }
    exists s2, (detach textNode s2).
    split; [done|]. split; [done|]. split; [done|].
    split; [by rewrite Hch3, <- app_assoc|].
    split; [rewrite parent_of_detach; by rewrite decide_True|].
    split.
    { intros r Hr. rewrite parent_of_detach, Hpar2.
      rewrite decide_False by (intros ->; done). by rewrite decide_True. }
    split.
    { intros q Hq. rewrite Hoth3 by done. by apply Hoth2. }
    split; [done|].
    rewrite (loopBody_match _ _ _ _ _ _ Hf), Hins, Hrem. done.
  - intros s1 reps Hf Hpar.
    destruct (replacement_skipped_without_parent textNode reps s1 Hpar)
      as [Hins Hrem].
    split; [done|]. split; [done|].
    rewrite (loopBody_match _ _ _ _ _ _ Hf). by rewrite Hins, Hrem.
  - intros s1 Hf. by apply loopBody_no_match.
Qed.

(** C2.  When the filter has answered for [textNode], leaving the store
    [s1], an iteration that completes has read the successor from
    [walker.nextNode()] on [s1], the tree as it is before any replacement
    node is inserted and before the current node is removed: the mutations
    of the iteration start from that same [s1].  This is so whether the
    filter matched or not, and the loop advances to that successor: it
    ends, leaving the mutated tree, when the successor is null, and
    otherwise its next iteration is the loop body on the successor, with
    the walker as [nextNode] left it, on the mutated tree. *)
Theorem successor_read_before_mutation
    (nodeFilter : INodeFilter) walker textNode s replacementNodes s1 next s2 :
  NodeFilter.filter nodeFilter textNode s = (Ok replacementNodes, s1) →
  loopBody nodeFilter walker textNode s = (Ok next, s2) →
  next = walkerNext walker s1 ∧
  match replacementNodes with
  | None => s2 = s1
  | Some reps =>
      ∃ s', NodeFilter.insertReplacements textNode reps s1 = (Ok (), s') ∧
            NodeFilter.removeCurrent textNode s' = (Ok (), s2)
  end ∧
  ∀ fuel,
    whileLoop (S fuel) nodeFilter walker (Some textNode) s =
      match (walkerNext walker s1).1 with
      | None => Some (Ok (), s2)
      | Some successor =>
          match fuel with
          | O => None
          | S fuel' =>
              match loopBody nodeFilter (walkerNext walker s1).2 successor s2 with
              | (Ok (textNode', walker'), s3) =>
                  whileLoop fuel' nodeFilter walker' textNode' s3
              | (Throw e, s3) => Some (Throw e, s3)
              end
          end
      end.
Proof.
  intros Hf Hbody.
  assert (Hnext : next = walkerNext walker s1 ∧
    match replacementNodes with
    | None => s2 = s1
    | Some reps =>
        ∃ s', NodeFilter.insertReplacements textNode reps s1 = (Ok (), s') ∧
              NodeFilter.removeCurrent textNode s' = (Ok (), s2)
    end).
  { destruct replacementNodes as [reps|].
    - rewrite (loopBody_match _ _ _ _ _ _ Hf) in Hbody.
      destruct (NodeFilter.insertReplacements textNode reps s1) as [[[]|e] s'];
        [|done].
      destruct (NodeFilter.removeCurrent textNode s') as [[[]|e] s3] eqn:Hrem;
        [|done].
      injection Hbody as <- <-. split; [done|]. by exists s'.
    - rewrite (loopBody_no_match _ _ _ _ _ Hf) in Hbody.
      injection Hbody as <- <-. done. }
  destruct Hnext as [-> Hmut]. split; [done|]. split; [done|].
  intros fuel. simpl. rewrite Hbody.
  destruct (walkerNext walker s1) as [[successor|] walker']; simpl.
  - by destruct fuel.
  - by destruct fuel.
Qed.

Lemma whileLoop_iterations k (nodeFilter : INodeFilter) :
  ∀ walker textNode s textNode' walker' s' fuel,
  iterations k nodeFilter walker textNode s = Some (textNode', walker', s') →
  whileLoop (k + fuel) nodeFilter walker textNode s =
  whileLoop fuel nodeFilter walker' textNode' s'.
Proof.
  induction k as [|k IH]; intros walker textNode s textNode' walker' s' fuel; simpl.
  - by intros [= -> -> ->].
  - destruct textNode as [n|]; [|done].
    destruct (NodeFilter.loopBody walkerNext nodeFilter walker n s)
      as [[[t w]|e] s1]; [|done].
    apply IH.
Qed.

(** A pass whose filter raises at a node it reaches raises the same error,
    with the tree as the filter left it. *)
Lemma applyNodeFilter_filter_throws fuel (nodeFilter : INodeFilter) mdDoc s
    k textNode walker s' e s'' :
  let w0 := NodeFilter.createFilterTreeWalker nodeFilter mdDoc s in
  iterations k nodeFilter (walkerNext w0 s).2 (walkerNext w0 s).1 s
    = Some (Some textNode, walker, s') →
  NodeFilter.filter nodeFilter textNode s' = (Throw e, s'') →
  k < fuel →
  applyNodeFilter fuel nodeFilter mdDoc s = Some (Throw e, s'').
Proof.
  intros w0 Hit Hf Hk. unfold NodeFilter.applyNodeFilter. fold w0.
  destruct (walkerNext w0 s) as [t w]. simpl in Hit.
  replace fuel with (k + S (fuel - S k)) by lia.
  rewrite (whileLoop_iterations _ _ _ _ _ _ _ _ _ Hit). simpl.
  by rewrite (loopBody_filter_throws _ _ _ _ _ _ Hf).
Qed.

Lemma forEachFilter_app fuel (earlier rest : list INodeFilter) mdDoc s0 s :
  forEachFilter fuel earlier mdDoc s0 = Some (Ok (), s) →
  forEachFilter fuel (earlier ++ rest) mdDoc s0 = forEachFilter fuel rest mdDoc s.
Proof.
  revert s0. induction earlier as [|f earlier IH]; intros s0; simpl.
  - by intros [= ->].
  - destruct (NodeFilter.applyNodeFilter walkerNext fuel f mdDoc s0)
      as [[[[]|e] s1]|]; [|done..].
    apply IH.
Qed.

Variable parseFromString : string → node * Store.
Variable innerHTML : Store → node → string.

Abbreviation applyNodeFilters :=
  (NodeFilter.applyNodeFilters walkerNext parseFromString innerHTML).

(** C3.  If the filters before [nodeFilter] have completed and the pass of
    [nodeFilter] reaches a node at which its [filter] operation raises [e],
    then [applyNodeFilters] raises [e]: it returns no markup, and the
    outcome is the same whatever filters come later, the document being left
    exactly as it was when the error was raised. *)
Theorem applyNodeFilters_filter_error_aborts fuel
    (earlier : list INodeFilter) (nodeFilter : INodeFilter) (later : list INodeFilter)
    parsedMarkdown mdDoc s0 s k textNode walker s' e s'' :
  parseFromString parsedMarkdown = (mdDoc, s0) →
  forEachFilter fuel earlier mdDoc s0 = Some (Ok (), s) →
  iterations k nodeFilter
    (walkerNext (NodeFilter.createFilterTreeWalker nodeFilter mdDoc s) s).2
    (walkerNext (NodeFilter.createFilterTreeWalker nodeFilter mdDoc s) s).1 s
    = Some (Some textNode, walker, s') →
  NodeFilter.filter nodeFilter textNode s' = (Throw e, s'') →
  k < fuel →
  applyNodeFilters fuel (earlier ++ nodeFilter :: later) parsedMarkdown
    = Some (Throw e) ∧
  forEachFilter fuel (earlier ++ nodeFilter :: later) mdDoc s0
    = Some (Throw e, s'').
Proof.
  intros Hparse Hearlier Hit Hf Hk.
  assert (Hrun : forEachFilter fuel (earlier ++ nodeFilter :: later) mdDoc s0
                 = Some (Throw e, s'')).
  { rewrite (forEachFilter_app _ _ _ _ _ _ Hearlier). simpl.
    by rewrite (applyNodeFilter_filter_throws fuel nodeFilter mdDoc s
                  k textNode walker s' e s'' Hit Hf Hk). }
  split; [|exact Hrun].
  unfold NodeFilter.applyNodeFilters. rewrite Hparse. by rewrite Hrun.
Qed.

End Executor.

(** *** Closed instances on the example document *)

Import NodeFilterExample.

Lemma loopBody_replaces_matched_node_witness :
  ∃ s3,
    NodeFilter.loopBody nextNode mentionFilter walkerAt4 4%positive doc
      = (Ok (nextNode walkerAt4 doc), s3) ∧
    children_of s3 2%positive = [3; 10; 11; 12; 5]%positive ∧
    parent_of s3 4%positive = None.
Proof.
  destruct (proj1 (loopBody_replaces_matched_node nextNode mentionFilter
                     walkerAt4 4%positive doc)
              doc [10; 11; 12]%positive 2%positive [3]%positive [5]%positive)
    as (s2 & s3 & _ & _ & _ & Hch & Hpar & _ & _ & _ & Hbody).
  - reflexivity.
  - apply well_formedb_sound. vm_compute. reflexivity.
  - left. reflexivity.
  - intros r Hr. right. left.
    rewrite !elem_of_cons in Hr.
    destruct Hr as [->|[->|[->|Hr]]]; [reflexivity..|by apply elem_of_nil in Hr].
  - reflexivity.
  - reflexivity.
  - by_decide.
  - by_decide.
  - intros r Hr.
    apply (not_inclusive_ancestor_by_chain 5 doc 2%positive [2; 1]%positive);
      [reflexivity|].
    rewrite !elem_of_cons in Hr.
    destruct Hr as [->|[->|[->|Hr]]]; [by_decide..|by apply elem_of_nil in Hr].
  - exists s3. split; [exact Hbody|]. split; [|exact Hpar].
    rewrite Hch. reflexivity.
Defined.

(** C1 as stated fails.  When the sequence gives a node twice, the
    children are not in the order of the sequence; when it gives the
    matched node itself, that node is removed all the same; and for a
    matched node without parent the replacement node is not inserted
    anywhere. *)
Lemma loopBody_replacement_not_as_given :
  NodeFilter.filter repeatingFilter 4%positive doc
    = (Ok (Some [10; 11; 10]%positive), doc) ∧
  children_of
    (NodeFilter.loopBody nextNode repeatingFilter walkerAt4 4%positive doc).2
    2%positive = [3; 11; 10; 5]%positive ∧
  NodeFilter.filter keepingFilter 4%positive doc
    = (Ok (Some [10; 4]%positive), doc) ∧
  children_of
    (NodeFilter.loopBody nextNode keepingFilter walkerAt4 4%positive doc).2
    2%positive = [3; 10; 5]%positive ∧
  NodeFilter.filter eagerFilter 30%positive doc = (Ok (Some [40%positive]), doc) ∧
  NodeFilter.loopBody nextNode eagerFilter walkerAt4 30%positive doc
    = (Ok (nextNode walkerAt4 doc), doc) ∧
  parent_of doc 40%positive = None.
Proof. repeat split; vm_compute; reflexivity. Qed.

Lemma successor_read_before_mutation_witness :
  (nextNode walkerAt4 doc).1 = Some 5%positive ∧
  ∀ fuel,
    NodeFilter.whileLoop nextNode (S (S fuel)) mentionFilter walkerAt4
      (Some 4%positive) doc
    = Some (Ok (),
            (NodeFilter.loopBody nextNode mentionFilter walkerAt4 4%positive doc).2).
Proof.
  split; [reflexivity|].
  intros fuel.
  etrans.
  { apply (successor_read_before_mutation nextNode mentionFilter
             walkerAt4 4%positive doc (Some [10; 11; 12]%positive) doc
             (nextNode walkerAt4 doc)
             (NodeFilter.loopBody nextNode mentionFilter walkerAt4 4%positive doc).2).
    - reflexivity.
    - vm_compute. reflexivity. }
  destruct fuel; vm_compute; reflexivity.
Defined.

(** Had the successor been asked for after the mutation, the live walker,
    standing on the removed node, would have found none. *)
Example successor_lost_after_removal :
  (nextNode walkerAt4
     (NodeFilter.loopBody nextNode mentionFilter walkerAt4 4%positive doc).2).1
  = None.
Proof. vm_compute. reflexivity. Qed.

(** The DOM refuses to insert the document before one of its own
    descendants, and a filter that asks for it aborts the pass. *)
Example insertBefore_ancestor_refused :
  insertBefore 2%positive 1%positive (Some 4%positive) doc
  = (Throw (DOMException "HierarchyRequestError"), doc).
Proof. vm_compute. reflexivity. Qed.

Lemma applyNodeFilters_filter_error_aborts_witness :
  NodeFilter.applyNodeFilters nextNode parseDoc renderBody 10
    ([mentionFilter] ++ failingFilter :: [emojiFilter]) "<p>a @b c</p>"
  = Some (Throw (Rejected "lookup failed")).
Proof.
  refine (proj1 (applyNodeFilters_filter_error_aborts nextNode parseDoc renderBody
    10 [mentionFilter] failingFilter [emojiFilter] "<p>a @b c</p>" 1%positive doc
    _ 4 5%positive _ _ (Rejected "lookup failed") _ _ _ _ _ _)).
  - reflexivity.
  - vm_compute. reflexivity.
  - vm_compute. reflexivity.
  - vm_compute. reflexivity.
  - lia.
Defined.

(** Without the failing filter the same pipeline returns markup. *)
Example applyNodeFilters_example :
  NodeFilter.applyNodeFilters nextNode parseDoc renderBody 10
    [mentionFilter; emojiFilter] "<p>a @b c</p>"
  = Some (Ok "20 10 11 12 5").
Proof. vm_compute. reflexivity. Qed.

End NodeFilterProofs.

(** ** The pipeline builder *)

Module BuilderProofs.
Import NodeFilter.

Lemma buildPipe_run args h :
  ∃ pipe,
    buildPipe args h = (Ok pipe, 10 + h) ∧
    classes pipe = expected_classes args ∧
    ∀ x, x ∈ refs pipe → h ≤ x < 10 + h.
Proof.
  destruct args as [emoji repository].
  eexists. split; [reflexivity|]. split; [reflexivity|].
  intros x Hx. unfold refs in Hx. simpl in Hx.
  rewrite !elem_of_cons in Hx. rewrite elem_of_nil in Hx. lia.
Qed.

Lemma memoizeOne_hit {S A B : Type} `{EqDecision A} (f : A → M S B) args c s :
  lastArgs c = args →
  memoizeOne f args (Some c, s) = (Ok (lastResult c), (Some c, s)).
Proof. intros <-. unfold memoizeOne. simpl. by rewrite decide_True. Qed.

Lemma memoizeOne_miss {S A B : Type} `{EqDecision A} (f : A → M S B) args cache s r s' :
  (∀ c, cache = Some c → lastArgs c ≠ args) →
  f args s = (Ok r, s') →
  memoizeOne f args (cache, s) = (Ok r, (Some (mkCache args r), s')).
Proof.
  intros Hc Hf. unfold memoizeOne. simpl. rewrite Hf.
  destruct cache as [c|]; [|done].
  rewrite decide_False; [done|]. intros E. by apply (Hc c).
Qed.

(** Every call returns a pipe and leaves it, with its pair, in the cache. *)
Lemma builder_call st emoji repository :
  ∃ pipe h',
    buildCustomMarkDownNodeFilterPipe emoji repository st
      = (Ok pipe, (Some (mkCache (emoji, repository) pipe), h')) ∧
    (cache_built st → cache_built (Some (mkCache (emoji, repository) pipe), h')).
Proof.
  destruct st as [cache h]. unfold buildCustomMarkDownNodeFilterPipe.
  destruct cache as [[args pipe]|].
  - destruct (decide (args = (emoji, repository))) as [->|Hne].
    + exists pipe, h. by rewrite memoizeOne_hit.
    + destruct (buildPipe_run (emoji, repository) h) as (pipe' & Hrun & Hcl & Hrefs).
      exists pipe', (10 + h). split.
      * apply memoizeOne_miss; [|done]. intros c [= <-]. done.
      * intros _ c [= <-]. simpl. split; [done|]. intros x Hx.
        apply Hrefs in Hx. lia.
  - destruct (buildPipe_run (emoji, repository) h) as (pipe' & Hrun & Hcl & Hrefs).
    exists pipe', (10 + h). split.
    + apply memoizeOne_miss; [|done]. intros c [=].
    + intros _ c [= <-]. simpl. split; [done|]. intros x Hx.
      apply Hrefs in Hx. lia.
Qed.

Lemma reachable_cache_built st : reachable st → cache_built st.
Proof.
  induction 1 as [h|st emoji repository _ IH].
  - intros c [=].
  - destruct (builder_call st emoji repository) as (pipe & h' & Hcall & Hinv).
    rewrite Hcall. simpl. by apply Hinv.
Qed.

(** C5.  The builder keeps the pipe of its last argument pair: a second
    call with the same pair returns the very same array (same reference,
    same instances) and builds nothing; a call with another pair runs the
    arrow function again and caches its result, an array and instances
    whose references are all new. *)
Theorem buildCustomMarkDownNodeFilterPipe_memoizes_last_pair st emoji repository :
  ∃ pipe st1,
    buildCustomMarkDownNodeFilterPipe emoji repository st = (Ok pipe, st1) ∧
    buildCustomMarkDownNodeFilterPipe emoji repository st1 = (Ok pipe, st1) ∧
    ∀ emoji' repository',
      (emoji', repository') ≠ (emoji, repository) →
      ∃ pipe',
        buildPipe (emoji', repository') st1.2 = (Ok pipe', 10 + st1.2) ∧
        buildCustomMarkDownNodeFilterPipe emoji' repository' st1
          = (Ok pipe', (Some (mkCache (emoji', repository') pipe'), 10 + st1.2)) ∧
        (reachable st → ∀ x, x ∈ refs pipe' → x ∉ refs pipe).
Proof.
  destruct (builder_call st emoji repository) as (pipe & h1 & Hcall & Hinv).
  exists pipe, (Some (mkCache (emoji, repository) pipe), h1).
  split; [exact Hcall|]. split.
  - unfold buildCustomMarkDownNodeFilterPipe. by apply memoizeOne_hit.
  - intros emoji' repository' Hne.
    destruct (buildPipe_run (emoji', repository') h1) as (pipe' & Hrun & _ & Hrefs).
    exists pipe'. split; [exact Hrun|]. split.
    + unfold buildCustomMarkDownNodeFilterPipe.
      apply memoizeOne_miss; [|exact Hrun]. intros c [= <-]. simpl. congruence.
    + intros Hreach x Hx Hold.
      apply reachable_cache_built in Hreach.
      destruct (Hinv Hreach _ eq_refl) as [_ Hlt].
      apply Hrefs in Hx. apply Hlt in Hold. simpl in *. lia.
Qed.

Lemma expected_classes_order args i j ri rj :
  expected_classes args !! i = Some (TeamMentionFilter ri) →
  expected_classes args !! j = Some (MentionFilter rj) →
  i < j.
Proof.
  intros Hi Hj.
  assert (i = 3) as ->.
  { do 9 (destruct i as [|i]; [by (discriminate Hi || reflexivity)|]). done. }
  assert (j = 4) as ->.
  { do 9 (destruct j as [|j]; [by (discriminate Hj || reflexivity)|]). done. }
  lia.
Qed.

(** C6.  In every pipe the builder returns, a team-mention filter and a
    mention filter occur, and every team-mention filter stands at a smaller
    index than every mention filter. *)
Theorem team_mention_filter_precedes_mention_filter st emoji repository :
  reachable st →
  ∃ pipe st',
    buildCustomMarkDownNodeFilterPipe emoji repository st = (Ok pipe, st') ∧
    (∃ i, classes pipe !! i = Some (TeamMentionFilter repository)) ∧
    (∃ j, classes pipe !! j = Some (MentionFilter repository)) ∧
    ∀ i j ri rj,
      classes pipe !! i = Some (TeamMentionFilter ri) →
      classes pipe !! j = Some (MentionFilter rj) →
      i < j.
Proof.
  intros Hreach%reachable_cache_built.
  destruct (builder_call st emoji repository) as (pipe & h' & Hcall & Hinv).
  destruct (Hinv Hreach _ eq_refl) as [Hcl _]. simpl in Hcl.
  exists pipe, (Some (mkCache (emoji, repository) pipe), h').
  split; [exact Hcall|]. rewrite Hcl.
  split; [by exists 3|]. split; [by exists 4|].
  intros i j ri rj. apply expected_classes_order.
Qed.

(** *** Closed instances: the emoji map is object 100, the repositories
    are objects 200 and 201, and the heap's next reference is 0 *)

Lemma buildCustomMarkDownNodeFilterPipe_memoizes_last_pair_witness :
  ∃ pipe st1 pipe',
    buildCustomMarkDownNodeFilterPipe 100 200 (None, 0) = (Ok pipe, st1) ∧
    arrayRef pipe = 9 ∧
    buildCustomMarkDownNodeFilterPipe 100 200 st1 = (Ok pipe, st1) ∧
    buildCustomMarkDownNodeFilterPipe 100 201 st1
      = (Ok pipe', (Some (mkCache (100, 201) pipe'), 20)) ∧
    arrayRef pipe' = 19.
Proof.
  destruct (buildCustomMarkDownNodeFilterPipe_memoizes_last_pair (None, 0) 100 200)
    as (pipe & st1 & Hfirst & Hsame & Hchanged).
  destruct (Hchanged 100 201) as (pipe' & Hbuild & Hcall & _); [congruence|].
  vm_compute in Hfirst. injection Hfirst as <- <-.
  vm_compute in Hbuild. injection Hbuild as <-.
  eexists _, _, _. split; [reflexivity|]. split; [reflexivity|].
  split; [exact Hsame|]. split; [exact Hcall|]. reflexivity.
Defined.

(** The cache has one slot: after a call for another repository, a call
    for the first one builds a third pipe. *)
Example builder_cache_has_one_slot :
  let first := buildCustomMarkDownNodeFilterPipe 100 200 (None, 0) in
  let second := buildCustomMarkDownNodeFilterPipe 100 201 first.2 in
  let third := buildCustomMarkDownNodeFilterPipe 100 200 second.2 in
  (λ r, match r with Ok pipe => Some (arrayRef pipe) | Throw _ => None end)
    <$> [first.1; second.1; third.1] = [Some 9; Some 19; Some 29].
Proof. vm_compute. reflexivity. Qed.

Lemma team_mention_filter_precedes_mention_filter_witness :
  ∃ pipe st',
    buildCustomMarkDownNodeFilterPipe 100 200 (None, 0) = (Ok pipe, st') ∧
    ∀ i j ri rj,
      classes pipe !! i = Some (TeamMentionFilter ri) →
      classes pipe !! j = Some (MentionFilter rj) →
      i < j.
Proof.
  destruct (team_mention_filter_precedes_mention_filter (None, 0) 100 200)
    as (pipe & st' & Hcall & _ & _ & Horder); [apply reachable_init|].
  exists pipe, st'. split; [exact Hcall|exact Horder].
Defined.

End BuilderProofs.

(** ** The dispatcher's error handlers *)

Module ErrorHandlersProofs.
Import ErrorHandlers.

Section Handlers.
Context {World : Type}.
Implicit Types (dispatcher : @Dispatcher World) (appStore : @AppStore World).

(** C10.  [defaultErrorHandler] hands the error to [presentError] and,
    once that has completed, returns null with the application as
    [presentError] left it (a rejection of [presentError] is passed on); in
    no case does it return an error for further handling. *)
Theorem defaultErrorHandler_presents_then_handles error dispatcher (w : World) :
  defaultErrorHandler error dispatcher w =
    match presentError dispatcher error w with
    | (Ok _, w') => (Ok None, w')
    | (Throw e, w') => (Throw e, w')
    end ∧
  ∀ error' w', defaultErrorHandler error dispatcher w ≠ (Ok (Some error'), w').
Proof.
  unfold defaultErrorHandler, bind, ret.
  destruct (presentError dispatcher error w) as [[[]|e] w1]; split; try done.
Qed.

Lemma missingRepositoryHandler_passes_on appStore error dispatcher (w : World) :
  settles (getState appStore w) error = false →
  missingRepositoryHandler appStore error dispatcher w = (Ok (Some error), w).
Proof.
  unfold settles, missingRepositoryHandler, isRepositorySelection.
  destruct (selectedState (getState appStore w)) as [[t [i m]]|]; [|done].
  simpl. destruct t, m, (isNotAGitRepository error); done.
Qed.

Lemma missingRepositoryHandler_settles appStore error dispatcher (w : World) sel :
  selectedState (getState appStore w) = Some sel →
  settles (getState appStore w) error = true →
  missingRepositoryHandler appStore error dispatcher w =
    if missing (repository sel) then (Ok None, w)
    else match updateRepositoryMissing dispatcher (repository sel) true w with
         | (Ok _, w') => (Ok None, w')
         | (Throw e, w') => (Throw e, w')
         end.
Proof.
  unfold settles, missingRepositoryHandler, isRepositorySelection.
  intros ->. destruct sel as [t [i m]]. simpl.
  destruct t, m, (isNotAGitRepository error); try done;
    unfold bind, ret; simpl;
    by destruct (updateRepositoryMissing dispatcher _ true w) as [[[]|e] w1].
Qed.

(** C4, amended.  The handler returns the received error, and leaves the
    application alone, unless there is a selection of type [Repository] or
    [MissingRepository] whose repository is already marked missing or the
    error is a [GitError] classified "not a git repository".  In that case
    it returns null: at once when the repository is already marked missing
    (whatever the error), and otherwise once [updateRepositoryMissing] has
    marked the selected repository.  It returns null in no other case. *)
Theorem missingRepositoryHandler_settles_or_passes_on
    appStore error dispatcher (w : World) :
  (settles (getState appStore w) error = false →
   missingRepositoryHandler appStore error dispatcher w = (Ok (Some error), w)) ∧
  (∀ sel,
     selectedState (getState appStore w) = Some sel →
     settles (getState appStore w) error = true →
     missingRepositoryHandler appStore error dispatcher w =
       if missing (repository sel) then (Ok None, w)
       else match updateRepositoryMissing dispatcher (repository sel) true w with
            | (Ok _, w') => (Ok None, w')
            | (Throw e, w') => (Throw e, w')
            end) ∧
  (∀ w',
     missingRepositoryHandler appStore error dispatcher w = (Ok None, w') →
     settles (getState appStore w) error = true).
Proof.
  split; [apply missingRepositoryHandler_passes_on|].
  split; [apply missingRepositoryHandler_settles|].
  intros w' H. destruct (settles (getState appStore w) error) eqn:E; [done|].
  rewrite (missingRepositoryHandler_passes_on _ _ _ _ E) in H. done.
Qed.

End Handlers.

(** *** Closed instances *)

(** C4 as stated fails: with the selected repository already marked
    missing, an error that is no git error at all is answered with null. *)
Lemma missingRepositoryHandler_settles_unclassified_error :
  isNotAGitRepository (PlainError "network unreachable") = false ∧
  missingRepositoryHandler loggedStore (PlainError "network unreachable")
    loggingDispatcher selectedMissing = (Ok None, selectedMissing).
Proof. split; reflexivity. Qed.

Lemma missingRepositoryHandler_settles_or_passes_on_witness :
  missingRepositoryHandler loggedStore (PlainError "network unreachable")
    loggingDispatcher selectedPresent
    = (Ok (Some (PlainError "network unreachable")), selectedPresent) ∧
  missingRepositoryHandler loggedStore (GitError (Some NotAGitRepository) "fatal")
    loggingDispatcher selectedPresent
    = (Ok None,
       mkWorld (selection selectedPresent)
         [UpdatedRepositoryMissing (mkRepository 1 false) true]).
Proof.
  split.
  - apply (proj1 (missingRepositoryHandler_settles_or_passes_on loggedStore
      (PlainError "network unreachable") loggingDispatcher selectedPresent)).
    reflexivity.
  - apply (proj1 (proj2 (missingRepositoryHandler_settles_or_passes_on loggedStore
      (GitError (Some NotAGitRepository) "fatal") loggingDispatcher selectedPresent))
      (mkSelectedState Repository (mkRepository 1 false))); reflexivity.
Defined.

Example defaultErrorHandler_example :
  defaultErrorHandler (PlainError "boom") loggingDispatcher selectedPresent
  = (Ok None, mkWorld (selection selectedPresent) [PresentedError (PlainError "boom")]).
Proof. reflexivity. Qed.

End ErrorHandlersProofs.

(** ** The date formatter *)

Module FormatDateProofs.
Import FormatDate.

Section Formatting.
Context {Options Formatter Cache : Type}.
Variable parse : string → result Schema.
Variable DateTimeFormat : option Locales → Options → result Formatter.
Variable format : Formatter → Date → result string.
Variable cacheKey : Locales → Options → string.
Variable cacheGet : string → Cache → option Formatter * Cache.
Variable cacheSet : string → Formatter → Cache → Cache.

Abbreviation State := (@FormatDate.State Options Formatter Cache).
Abbreviation getDateFormatter :=
  (FormatDate.getDateFormatter DateTimeFormat cacheKey cacheGet cacheSet).
Abbreviation formatDate :=
  (FormatDate.formatDate DateTimeFormat format cacheKey cacheGet cacheSet).
Abbreviation callFormat := (FormatDate.callFormat (Cache:=Cache) format).
Abbreviation setDateLocale := (FormatDate.setDateLocale (Formatter:=Formatter) (Options:=Options) (Cache:=Cache) parse).

(** With a valid date, [formatDate] asks for the formatter of the locales
    the configured [dateLocale] stands for. *)
Lemma formatDate_valid date options (st : State) :
  isNaN (valueOf date) = false →
  formatDate date options st =
    bind (getDateFormatter (localesFor (dateLocale st)) options)
         (λ formatter, callFormat formatter date) st.
Proof. intros H. unfold FormatDate.formatDate. by rewrite H. Qed.

(** C9.  For a date whose time value is NaN, [formatDate] returns
    'Invalid date' and changes nothing: no formatter is looked up,
    constructed or asked to format. *)
Theorem formatDate_invalid_date options (st : State) :
  formatDate (mkDate NaN) options st = (Ok "Invalid date", st).
Proof. reflexivity. Qed.

(** C7, amended.  When the parser reads no region in the locale string
    (it reports the region as null or as undefined), [setDateLocale] does
    not throw and does not keep the locale configured before: for a null
    region [dateLocale] becomes "en-US" and nothing is logged, for an
    undefined region it becomes undefined and "Failed parsing locale from
    ..." is logged; [formatDate] then asks for formatters of the default
    locale "en-US" only. *)
Theorem setDateLocale_without_region_falls_back (st : State) locale schema :
  parse (replaceAll locale "_" "-") = Ok schema →
  (∀ r, region schema ≠ RegionTag r) →
  ∃ st',
    setDateLocale (Some locale) st = (Ok (dateLocale st'), st') ∧
    (dateLocale st' = None ∨ dateLocale st' = Some defaultLocale) ∧
    (region schema = RegionNull →
     dateLocale st' = Some defaultLocale ∧ logged st' = logged st) ∧
    (region schema = RegionUndefined →
     dateLocale st' = None ∧
     logged st' =
       logged st ++ [LogError ("Failed parsing locale from " +:+ locale) None]) ∧
    formatters st' = formatters st ∧
    intlCalls st' = intlCalls st ∧
    ∀ date options,
      isNaN (valueOf date) = false →
      ∃ locales,
        (locales = Locale defaultLocale ∨
         locales = LocaleList [defaultLocale; defaultLocale]) ∧
        formatDate date options st' =
          bind (getDateFormatter locales options)
               (λ formatter, callFormat formatter date) st'.
Proof.
  intros Hparse Hregion. unfold FormatDate.setDateLocale. rewrite Hparse.
  cbv zeta. eexists. split; [reflexivity|].
  destruct (region schema) as [| |r] eqn:E; [| |by destruct (Hregion r)].
  - split; [by left|]. split; [done|]. split; [done|].
    do 2 (split; [reflexivity|]).
    intros date options Hvalid. exists (Locale defaultLocale).
    split; [by left|]. by rewrite formatDate_valid.
  - split; [by right|]. split; [done|]. split; [done|].
    do 2 (split; [reflexivity|]).
    intros date options Hvalid.
    exists (LocaleList [defaultLocale; defaultLocale]).
    split; [by right|]. by rewrite formatDate_valid.
Qed.

(** A region reported as undefined takes the branch that logs. *)
Lemma setDateLocale_undefined_region (st : State) locale :
  parse (replaceAll locale "_" "-") = Ok (mkSchema RegionUndefined) →
  setDateLocale (Some locale) st =
    (Ok None,
     log_error ("Failed parsing locale from " +:+ locale) None
       (set_dateLocale None st)).
Proof. intros H. unfold FormatDate.setDateLocale. by rewrite H. Qed.

(** When the parser itself raises, the error is logged and [dateLocale]
    stays as it was. *)
Lemma setDateLocale_parser_throws (st : State) locale e :
  parse (replaceAll locale "_" "-") = Throw e →
  setDateLocale (Some locale) st =
    (Ok (dateLocale st), log_error "Failed setting date locale" (Some e) st).
Proof. intros H. unfold FormatDate.setDateLocale. by rewrite H. Qed.

(** A region reported as null is read as "US", without a log entry. *)
Lemma setDateLocale_null_region (st : State) locale :
  parse (replaceAll locale "_" "-") = Ok (mkSchema RegionNull) →
  setDateLocale (Some locale) st =
    (Ok (Some "en-US"), set_dateLocale (Some "en-US") st).
Proof. intros H. unfold FormatDate.setDateLocale. by rewrite H. Qed.

(** C8.  When the parser reads the region CA in "fr-CA",
    [setDateLocale("fr_CA")] returns normally, logs nothing and sets
    [dateLocale] to "en-CA"; [formatDate] then asks for the formatter of
    the locale list ["en-CA", "en-US"]. *)
Theorem setDateLocale_fr_CA (st : State) schema :
  parse "fr-CA" = Ok schema →
  region schema = RegionTag "CA" →
  ∃ st',
    setDateLocale (Some "fr_CA") st = (Ok (Some "en-CA"), st') ∧
    dateLocale st' = Some "en-CA" ∧
    logged st' = logged st ∧
    formatters st' = formatters st ∧
    intlCalls st' = intlCalls st ∧
    ∀ date options,
      isNaN (valueOf date) = false →
      formatDate date options st' =
        bind (getDateFormatter (LocaleList ["en-CA"; "en-US"]) options)
             (λ formatter, callFormat formatter date) st'.
Proof.
  intros Hparse Hregion.
  exists (set_dateLocale (Some "en-CA") st).
  split.
  { unfold FormatDate.setDateLocale.
    change (replaceAll "fr_CA" "_" "-") with "fr-CA".
    by rewrite Hparse, Hregion. }
  do 4 (split; [reflexivity|]).
  intros date options Hvalid. by rewrite formatDate_valid.
Qed.

End Formatting.

(** *** Closed instances *)

(** C7 as stated fails: with "en-CA" configured, a locale string without a
    region does not leave the configured locale as it was, and no failure
    is logged. *)
Lemma setDateLocale_discards_configured_locale :
  readTag (replaceAll "not a locale" "_" "-") = Ok (mkSchema RegionNull) ∧
  dateLocale canadianState = Some "en-CA" ∧
  logged canadianState = [] ∧
  exampleSetDateLocale (Some "not a locale") canadianState
    = (Ok (Some "en-US"), set_dateLocale (Some "en-US") canadianState) ∧
  logged (set_dateLocale (Some "en-US") canadianState) = [] ∧
  (exampleFormatDate (mkDate (Millis 42)) "short" canadianState).1
    = Ok "42 [en-CA,en-US]" ∧
  (exampleFormatDate (mkDate (Millis 42)) "short"
     (exampleSetDateLocale (Some "not a locale") canadianState).2).1
    = Ok "42 [en-US,en-US]".
Proof. repeat split; vm_compute; reflexivity. Qed.

Lemma setDateLocale_without_region_falls_back_witness :
  ∃ st',
    exampleSetDateLocale (Some "not a locale") canadianState
      = (Ok (dateLocale st'), st') ∧
    dateLocale st' = Some "en-US" ∧
    logged st' = [].
Proof.
  destruct (setDateLocale_without_region_falls_back readTag makeFormatter
              showDate keyOf assocGet assocSet canadianState "not a locale"
              (mkSchema RegionNull))
    as (st' & Hset & _ & Hnull & _); [reflexivity|done|].
  exists st'. split; [exact Hset|]. exact (Hnull eq_refl).
Defined.

Lemma setDateLocale_fr_CA_witness :
  ∃ st',
    exampleSetDateLocale (Some "fr_CA") initialState = (Ok (Some "en-CA"), st') ∧
    logged st' = [] ∧
    (exampleFormatDate (mkDate (Millis 42)) "short" st').1 = Ok "42 [en-CA,en-US]".
Proof.
  destruct (setDateLocale_fr_CA readTag makeFormatter showDate keyOf assocGet
              assocSet initialState (mkSchema (RegionTag "CA")))
    as (st' & Hset & _ & Hlog & _ & _ & Hformat); [reflexivity..|].
  exists st'. split; [exact Hset|]. split; [exact Hlog|].
  unfold exampleFormatDate. rewrite Hformat by reflexivity.
  unfold exampleSetDateLocale in Hset. injection Hset as <-. reflexivity.
Defined.

End FormatDateProofs.

(** * Further properties *)

(** ** The pipeline executor *)

Module NodeFilterMore.
Import DOM DOMFacts NodeFilterProofs NodeFilterExample.

Lemma insertBefore_throw_unchanged p n c s e s' :
  insertBefore p n c s = (Throw e, s') → s' = s.
Proof.
  unfold insertBefore.
  destruct (pre_insertion_error s p n c); [|done]. by intros [= _ <-].
Qed.

Lemma insertReplacements_app cur a b s :
  NodeFilter.insertReplacements cur (a ++ b) s =
  bind (NodeFilter.insertReplacements cur a)
       (λ _, NodeFilter.insertReplacements cur b) s.
Proof.
  revert s. induction a as [|r a IH]; intros s; [done|].
  change (bind (NodeFilter.insertReplacement cur r)
            (λ _, NodeFilter.insertReplacements cur (a ++ b)) s =
          bind (bind (NodeFilter.insertReplacement cur r)
                     (λ _, NodeFilter.insertReplacements cur a))
               (λ _, NodeFilter.insertReplacements cur b) s).
  unfold bind.
  destruct (NodeFilter.insertReplacement cur r s) as [[[]|e] s1]; [|done].
  by rewrite IH.
Qed.

Section Executor.
Context {Walker : Type}.
Variable walkerNext : Walker → Store → option node * Walker.

Abbreviation INodeFilter := (@NodeFilter.INodeFilter Walker).
Abbreviation loopBody := (NodeFilter.loopBody walkerNext).
Abbreviation whileLoop := (NodeFilter.whileLoop walkerNext).
Abbreviation applyNodeFilter := (NodeFilter.applyNodeFilter walkerNext).
Abbreviation forEachFilter := (NodeFilter.forEachFilter walkerNext).
Abbreviation exhausted_within := (NodeFilter.exhausted_within walkerNext).


(** X2.  A filter that answers with an empty array removes the matched
    node: the children around it close up in their order, and no other
    child list changes. *)
Theorem loopBody_empty_replacement
    (nodeFilter : INodeFilter) walker textNode s s1 p L R :
  NodeFilter.filter nodeFilter textNode s = (Ok (Some []), s1) →
  well_formed s1 →
  parent_of s1 textNode = Some p →
  children_of s1 p = L ++ textNode :: R →
  ∃ s3,
    loopBody nodeFilter walker textNode s = (Ok (walkerNext walker s1), s3) ∧
    children_of s3 p = L ++ R ∧
    parent_of s3 textNode = None ∧
    (∀ q, q ≠ p → children_of s3 q = children_of s1 q) ∧
    (∀ m, m ≠ textNode → parent_of s3 m = parent_of s1 m).
Proof.
  intros Hf Hwf Hpar Hch.
  destruct (removeCurrent_detaches s1 textNode p L R Hwf Hpar Hch)
    as (Hrem & _ & Hch3 & Hoth3).
  exists (detach textNode s1).
  split.
  { rewrite (loopBody_match _ _ _ _ _ _ _ Hf). simpl.
    unfold ret. by rewrite Hrem. }
  split; [done|]. split; [rewrite parent_of_detach; by rewrite decide_True|].
  split; [done|].
  intros m Hm. rewrite parent_of_detach. by rewrite decide_False.
Qed.

(** X3.  When the matched node has no parent, the optional chaining skips
    the insertions and the removal: the replacement nodes are dropped, the
    tree is left as the filter left it, and the loop goes on. *)
Theorem loopBody_skips_node_without_parent
    (nodeFilter : INodeFilter) walker textNode s reps s1 :
  NodeFilter.filter nodeFilter textNode s = (Ok (Some reps), s1) →
  parent_of s1 textNode = None →
  loopBody nodeFilter walker textNode s = (Ok (walkerNext walker s1), s1).
Proof.
  intros Hf Hpar.
  destruct (replacement_skipped_without_parent textNode reps s1 Hpar)
    as [Hins Hrem].
  rewrite (loopBody_match _ _ _ _ _ _ _ Hf). by rewrite Hins, Hrem.
Qed.

(** X4.  When the DOM refuses one of the replacement nodes, the loop body
    raises the DOM's exception at once: the replacement nodes before it
    stay inserted, those after it are not inserted, the matched node is not
    removed, and the pass ends with that exception. *)
Theorem loopBody_refused_replacement
    (nodeFilter : INodeFilter) walker textNode s s1 accepted refused rest s2 e s2' :
  NodeFilter.filter nodeFilter textNode s
    = (Ok (Some (accepted ++ refused :: rest)), s1) →
  NodeFilter.insertReplacements textNode accepted s1 = (Ok (), s2) →
  NodeFilter.insertReplacement textNode refused s2 = (Throw e, s2') →
  loopBody nodeFilter walker textNode s = (Throw e, s2) ∧
  (∃ p, parent_of s2 textNode = Some p) ∧
  ∀ fuel,
    whileLoop (S fuel) nodeFilter walker (Some textNode) s = Some (Throw e, s2).
Proof.
  intros Hf Hacc Href.
  assert (Hp : ∃ p, parent_of s2 textNode = Some p ∧ s2' = s2).
  { unfold NodeFilter.insertReplacement in Href.
    destruct (parent_of s2 textNode) as [p|]; [|done].
    exists p. split; [done|]. by eapply insertBefore_throw_unchanged. }
  destruct Hp as (p & Hp & ->).
  assert (Hbody : loopBody nodeFilter walker textNode s = (Throw e, s2)).
  { rewrite (loopBody_match _ _ _ _ _ _ _ Hf).
    rewrite insertReplacements_app. erewrite bind_ok by exact Hacc.
    change (NodeFilter.insertReplacements textNode (refused :: rest) s2)
      with (bind (NodeFilter.insertReplacement textNode refused)
              (λ _, NodeFilter.insertReplacements textNode rest) s2).
    by erewrite bind_throw by exact Href. }
  split; [exact Hbody|]. split; [by exists p|].
  intros fuel. simpl. by rewrite Hbody.
Qed.

Lemma whileLoop_without_match (nodeFilter : INodeFilter) s k :
  (∀ n, NodeFilter.filter nodeFilter n s = (Ok None, s)) →
  ∀ fuel walker textNode,
  exhausted_within k walker textNode s →
  k ≤ fuel →
  whileLoop fuel nodeFilter walker textNode s = Some (Ok (), s).
Proof.
  intros Hf. induction k as [|k IH]; intros fuel walker textNode Hex Hk.
  - destruct textNode as [n|]; [done|]. by destruct fuel.
  - destruct textNode as [n|]; [|by destruct fuel].
    destruct fuel as [|fuel]; [lia|]. simpl.
    rewrite (loopBody_no_match _ _ _ _ _ _ (Hf n)).
    simpl in Hex. destruct (walkerNext walker s) as [t w]. simpl in Hex.
    apply IH; [done|lia].
Qed.

Variable parseFromString : string → node * Store.
Variable innerHTML : Store → node → string.

(** X5.  When no filter of the pipeline matches any node (each answers
    null and leaves the tree alone) and each filter's walker runs out
    within [k] nodes, [applyNodeFilters] returns the serialization of the
    parsed document as it is; so it does for the empty pipeline. *)
Theorem applyNodeFilters_without_match fuel (nodeFilters : list INodeFilter)
    parsedMarkdown k :
  Forall (λ nodeFilter : INodeFilter,
            let mdDoc := (parseFromString parsedMarkdown).1 in
            let s := (parseFromString parsedMarkdown).2 in
            let walker := NodeFilter.createFilterTreeWalker nodeFilter mdDoc s in
            (∀ n, NodeFilter.filter nodeFilter n s = (Ok None, s)) ∧
            exhausted_within k (walkerNext walker s).2 (walkerNext walker s).1 s)
         nodeFilters →
  k ≤ fuel →
  NodeFilter.applyNodeFilters walkerNext parseFromString innerHTML
    fuel nodeFilters parsedMarkdown
  = Some (Ok (innerHTML (parseFromString parsedMarkdown).2
                        (parseFromString parsedMarkdown).1)).
Proof.
  intros Hall Hk. unfold NodeFilter.applyNodeFilters.
  destruct (parseFromString parsedMarkdown) as [mdDoc s]. simpl in *.
  assert (Hrun : forEachFilter fuel nodeFilters mdDoc s = Some (Ok (), s)).
  { induction Hall as [|f fs [Hf Hex] _ IH]; [done|]. simpl.
    unfold NodeFilter.applyNodeFilter.
    destruct (walkerNext (NodeFilter.createFilterTreeWalker f mdDoc s) s)
      as [t w]. simpl in Hex.
    by rewrite (whileLoop_without_match f s k Hf fuel w t Hex Hk). }
  by rewrite Hrun.
Qed.

End Executor.

(** *** Closed instances on the example document *)

(** A fragment given to [insertBefore] is emptied: its children take the
    place before the reference child. *)
Example insertBefore_fragment_children :
  insertBefore 2%positive 20%positive (Some 4%positive) docWithFragment
    = (Ok (), fragmentInserted) ∧
  children_of fragmentInserted 2%positive = [3; 21; 22; 4; 5]%positive ∧
  children_of fragmentInserted 20%positive = [] ∧
  parent_of fragmentInserted 20%positive = None ∧
  parent_of fragmentInserted 21%positive = Some 2%positive ∧
  parent_of fragmentInserted 22%positive = Some 2%positive.
Proof. repeat split; vm_compute; reflexivity. Qed.

(** A document takes neither a text node nor a second element as a child,
    and a text node takes no child at all. *)
Example insertBefore_refused_by_kind :
  insertBefore 1%positive 3%positive None docWithFragment
    = (Throw (DOMException "HierarchyRequestError"), docWithFragment) ∧
  insertBefore 1%positive 21%positive None docWithFragment
    = (Throw (DOMException "HierarchyRequestError"), docWithFragment) ∧
  insertBefore 1%positive 20%positive None docWithFragment
    = (Throw (DOMException "HierarchyRequestError"), docWithFragment) ∧
  insertBefore 3%positive 21%positive None docWithFragment
    = (Throw (DOMException "HierarchyRequestError"), docWithFragment).
Proof. repeat split; vm_compute; reflexivity. Qed.

Lemma loopBody_empty_replacement_witness :
  ∃ s3,
    NodeFilter.loopBody nextNode removingFilter walkerAt4 4%positive doc
      = (Ok (nextNode walkerAt4 doc), s3) ∧
    children_of s3 2%positive = [3; 5]%positive.
Proof.
  destruct (loopBody_empty_replacement nextNode removingFilter walkerAt4
              4%positive doc doc 2%positive [3]%positive [5]%positive)
    as (s3 & Hbody & Hch & _).
  - reflexivity.
  - apply well_formedb_sound. vm_compute. reflexivity.
  - reflexivity.
  - reflexivity.
  - exists s3. split; [exact Hbody|exact Hch].
Defined.

Lemma loopBody_skips_node_without_parent_witness :
  NodeFilter.loopBody nextNode eagerFilter walkerAt4 30%positive doc
  = (Ok (nextNode walkerAt4 doc), doc).
Proof.
  apply (loopBody_skips_node_without_parent nextNode eagerFilter walkerAt4
           30%positive doc [40]%positive doc); reflexivity.
Defined.

Lemma loopBody_refused_replacement_witness :
  ∃ s2,
    NodeFilter.loopBody nextNode ancestorFilter walkerAt4 4%positive doc
      = (Throw (DOMException "HierarchyRequestError"), s2) ∧
    children_of s2 2%positive = [3; 10; 4; 5]%positive.
Proof.
  destruct (loopBody_refused_replacement nextNode ancestorFilter walkerAt4
              4%positive doc doc [10]%positive 1%positive [11]%positive
              (NodeFilter.insertReplacements 4%positive [10]%positive doc).2
              (DOMException "HierarchyRequestError")
              (NodeFilter.insertReplacements 4%positive [10]%positive doc).2)
    as (Hbody & _ & _).
  - reflexivity.
  - vm_compute. reflexivity.
  - vm_compute. reflexivity.
  - eexists. split; [exact Hbody|]. vm_compute. reflexivity.
Defined.

Lemma applyNodeFilters_without_match_witness :
  NodeFilter.applyNodeFilters nextNode parseDoc renderBody 5
    [idleFilter; idleFilter] "<p>a @b c</p>"
  = Some (Ok "3 4 5").
Proof.
  apply (applyNodeFilters_without_match nextNode parseDoc renderBody 5
           [idleFilter; idleFilter] "<p>a @b c</p>" 3); [|lia].
  repeat constructor; vm_compute; exact I.
Defined.

End NodeFilterMore.

(** ** The pipeline builder *)

Module BuilderMore.
Import NodeFilter BuilderProofs.

Lemma builder_call_miss cache h emoji repository :
  (∀ c, cache = Some c → lastArgs c ≠ (emoji, repository)) →
  ∃ pipe,
    buildCustomMarkDownNodeFilterPipe emoji repository (cache, h)
      = (Ok pipe, (Some (mkCache (emoji, repository) pipe), 10 + h)) ∧
    classes pipe = expected_classes (emoji, repository) ∧
    ∀ x, x ∈ refs pipe → h ≤ x < 10 + h.
Proof.
  intros Hne.
  destruct (buildPipe_run (emoji, repository) h) as (pipe & Hrun & Hcl & Hrefs).
  exists pipe. split; [|done].
  unfold buildCustomMarkDownNodeFilterPipe. by apply memoizeOne_miss.
Qed.

(** X6.  Whatever calls came before, the pipe the builder returns is one
    built for the emoji map and the repository of this call: nine filters,
    in the order issue mention, issue link, emoji, team mention, mention,
    commit mention, commit mention link, video tag, video link; the emoji
    filter holds the emoji map and the six repository filters hold the
    repository. *)
Theorem builder_pipe_is_for_requested_pair st emoji repository :
  reachable st →
  ∃ pipe st',
    buildCustomMarkDownNodeFilterPipe emoji repository st = (Ok pipe, st') ∧
    classes pipe =
      [IssueMentionFilter repository; IssueLinkFilter repository;
       EmojiFilter emoji; TeamMentionFilter repository;
       MentionFilter repository; CommitMentionFilter repository;
       CommitMentionLinkFilter repository; VideoTagFilter; VideoLinkFilter].
Proof.
  intros Hreach%reachable_cache_built.
  destruct (builder_call st emoji repository) as (pipe & h' & Hcall & Hinv).
  destruct (Hinv Hreach _ eq_refl) as [Hcl _].
  exists pipe, (Some (mkCache (emoji, repository) pipe), h').
  split; [exact Hcall|exact Hcl].
Qed.

(** X7.  The cache has one slot: when calls for two different argument
    pairs alternate, each call builds anew.  After a call for the first
    pair and a call for the second, a call for the first pair again returns
    a third array whose filters are of the same classes as the first
    array's, but none of whose objects is an object of the first or the
    second array. *)
Theorem builder_alternating_pairs_rebuild st emoji1 repository1 emoji2 repository2 :
  reachable st →
  (emoji1, repository1) ≠ (emoji2, repository2) →
  ∃ pipe1 st1 pipe2 st2 pipe3 st3,
    buildCustomMarkDownNodeFilterPipe emoji1 repository1 st = (Ok pipe1, st1) ∧
    buildCustomMarkDownNodeFilterPipe emoji2 repository2 st1 = (Ok pipe2, st2) ∧
    buildCustomMarkDownNodeFilterPipe emoji1 repository1 st2 = (Ok pipe3, st3) ∧
    classes pipe3 = classes pipe1 ∧
    ∀ x, x ∈ refs pipe3 → (x ∉ refs pipe1) ∧ (x ∉ refs pipe2).
Proof.
  intros Hreach%reachable_cache_built Hne.
  destruct (builder_call st emoji1 repository1) as (pipe1 & h1 & Hcall1 & Hinv1).
  destruct (Hinv1 Hreach _ eq_refl) as [Hcl1 Hold1]. simpl in Hcl1, Hold1.
  destruct (builder_call_miss (Some (mkCache (emoji1, repository1) pipe1)) h1
              emoji2 repository2) as (pipe2 & Hcall2 & _ & Hrefs2).
  { intros c [= <-]. simpl. done. }
  destruct (builder_call_miss (Some (mkCache (emoji2, repository2) pipe2)) (10 + h1)
              emoji1 repository1) as (pipe3 & Hcall3 & Hcl3 & Hrefs3).
  { intros c [= <-]. simpl. congruence. }
  eexists pipe1, _, pipe2, _, pipe3, _.
  split; [exact Hcall1|]. split; [exact Hcall2|]. split; [exact Hcall3|].
  split; [by rewrite Hcl3, Hcl1|].
  intros x Hx. apply Hrefs3 in Hx. split.
  - intros H1%Hold1. lia.
  - intros H2%Hrefs2. lia.
Qed.

Lemma builder_pipe_is_for_requested_pair_witness :
  ∃ pipe st',
    buildCustomMarkDownNodeFilterPipe 100 201
      (buildCustomMarkDownNodeFilterPipe 100 200 (None, 0)).2 = (Ok pipe, st') ∧
    classes pipe !! 2 = Some (EmojiFilter 100) ∧
    classes pipe !! 4 = Some (MentionFilter 201).
Proof.
  destruct (builder_pipe_is_for_requested_pair
              (buildCustomMarkDownNodeFilterPipe 100 200 (None, 0)).2 100 201)
    as (pipe & st' & Hcall & Hcl).
  - apply reachable_call, reachable_init.
  - exists pipe, st'. split; [exact Hcall|]. by rewrite Hcl.
Defined.

Lemma builder_alternating_pairs_rebuild_witness :
  ∃ pipe1 st1 pipe2 st2 pipe3 st3,
    buildCustomMarkDownNodeFilterPipe 100 200 (None, 0) = (Ok pipe1, st1) ∧
    buildCustomMarkDownNodeFilterPipe 100 201 st1 = (Ok pipe2, st2) ∧
    buildCustomMarkDownNodeFilterPipe 100 200 st2 = (Ok pipe3, st3) ∧
    arrayRef pipe3 ∉ refs pipe1.
Proof.
  destruct (builder_alternating_pairs_rebuild (None, 0) 100 200 100 201)
    as (pipe1 & st1 & pipe2 & st2 & pipe3 & st3 & H1 & H2 & H3 & _ & Hfresh).
  - apply reachable_init.
  - congruence.
  - exists pipe1, st1, pipe2, st2, pipe3, st3.
    split; [exact H1|]. split; [exact H2|]. split; [exact H3|].
    apply Hfresh. unfold refs. apply elem_of_cons. by left.
Defined.

End BuilderMore.

(** ** The dispatcher's error handlers *)

Module ErrorHandlersMore.
Import ErrorHandlers.

(** X8.  The missing-repository handler never presents an error: its
    outcome is the same whatever the dispatcher's [presentError] does. *)
Theorem missingRepositoryHandler_never_presents {World : Type}
    (appStore : @AppStore World) error (dispatcher : @Dispatcher World)
    (otherPresentError : Error → M World unit) (w : World) :
  missingRepositoryHandler appStore error dispatcher w =
  missingRepositoryHandler appStore error
    (mkDispatcher otherPresentError (updateRepositoryMissing dispatcher)) w.
Proof.
  unfold missingRepositoryHandler.
  destruct (selectedState (getState appStore w)) as [sel|]; [|done].
  destruct (bool_decide (type sel ≠ MissingRepository) &&
            bool_decide (type sel ≠ Repository)); [done|].
  destruct (missing (repository sel)); [done|].
  by destruct (isNotAGitRepository error).
Qed.

End ErrorHandlersMore.

(** ** The date formatter *)

Module FormatDateMore.
Import FormatDate FormatDateProofs.

Lemma replaceAll_again (s : string) :
  replaceAll (replaceAll s "_" "-") "_" "-" = replaceAll s "_" "-".
Proof.
  induction s as [|c s IH]; [done|]. simpl. rewrite IH. f_equal.
  destruct (Ascii.eqb c "_") eqn:E; [done|]. by rewrite E.
Qed.

Section Formatting.
Context {Options Formatter Cache : Type}.
Variable parse : string → result Schema.
Variable DateTimeFormat : option Locales → Options → result Formatter.
Variable format : Formatter → Date → result string.
Variable cacheKey : Locales → Options → string.
Variable cacheGet : string → Cache → option Formatter * Cache.
Variable cacheSet : string → Formatter → Cache → Cache.

Abbreviation State := (@FormatDate.State Options Formatter Cache).
Abbreviation getDateFormatter :=
  (FormatDate.getDateFormatter DateTimeFormat cacheKey cacheGet cacheSet).
Abbreviation formatDate :=
  (FormatDate.formatDate DateTimeFormat format cacheKey cacheGet cacheSet).
Abbreviation callFormat := (FormatDate.callFormat (Cache:=Cache) format).
Abbreviation setDateLocale :=
  (FormatDate.setDateLocale (Formatter:=Formatter) (Options:=Options)
     (Cache:=Cache) parse).

Lemma getDateFormatter_frame locale options (st : State) :
  dateLocale (getDateFormatter locale options st).2 = dateLocale st ∧
  logged (getDateFormatter locale options st).2 = logged st ∧
  intlCalls st `prefix_of` intlCalls (getDateFormatter locale options st).2.
Proof.
  unfold FormatDate.getDateFormatter, newDateFormatter, construct.
  destruct (cacheGet (cacheKey locale options) (formatters st)) as [[f|] c]; simpl.
  { split; [done|]. split; [done|]. done. }
  destruct (DateTimeFormat (Some locale) options) as [f|e]; simpl.
  { split; [done|]. split; [done|]. by apply prefix_app_r. }
  destruct (DateTimeFormat None options) as [f|e']; simpl;
    (split; [done|]; split; [done|]);
    rewrite <- app_assoc; by apply prefix_app_r.
Qed.

(** X9.  [formatDate] never changes the configured [dateLocale] and never
    logs, whether it returns or raises; what it asks of [Intl] is only
    added to what was asked before. *)
Theorem formatDate_keeps_locale_and_log date options (st : State) :
  dateLocale (formatDate date options st).2 = dateLocale st ∧
  logged (formatDate date options st).2 = logged st ∧
  intlCalls st `prefix_of` intlCalls (formatDate date options st).2.
Proof.
  unfold FormatDate.formatDate.
  destruct (isNaN (valueOf date)); [done|].
  destruct (getDateFormatter_frame (localesFor (dateLocale st)) options st)
    as (Hl & Hg & Hp).
  unfold bind.
  destruct (getDateFormatter (localesFor (dateLocale st)) options st)
    as [[f|e] st1]; simpl in *; [|done].
  split; [done|]. split; [done|].
  etrans; [exact Hp|]. by apply prefix_app_r.
Qed.

(** X10.  A formatter is constructed once: when the cache returns what was
    stored in it and keeps returning what it returned, then after one
    [formatDate] that returned, [formatDate] with the same options, for any
    valid date, asks [Intl] for no new formatter and only formats with the
    one of the first call. *)
Theorem formatDate_reuses_formatter date options (st : State) r st1 date' :
  (∀ k v c, (cacheGet k (cacheSet k v c)).1 = Some v) →
  (∀ k v c, (cacheGet k c).1 = Some v → (cacheGet k (cacheGet k c).2).1 = Some v) →
  isNaN (valueOf date) = false →
  isNaN (valueOf date') = false →
  formatDate date options st = (Ok r, st1) →
  ∃ formatter,
    format formatter date = Ok r ∧
    (formatDate date' options st1).1 = format formatter date' ∧
    intlCalls (formatDate date' options st1).2
      = intlCalls st1 ++ [Formatted formatter date'].
Proof.
  intros Hset Hget Hd Hd'.
  rewrite !formatDate_valid by done.
  set (locale := localesFor (dateLocale st)).
  set (key := cacheKey locale options).
  intros Hfirst.
  assert (Hcached : ∃ formatter,
    format formatter date = Ok r ∧
    dateLocale st1 = dateLocale st ∧
    (cacheGet key (formatters st1)).1 = Some formatter).
  { unfold bind in Hfirst.
    unfold FormatDate.getDateFormatter in Hfirst. fold key in Hfirst.
    destruct (cacheGet key (formatters st)) as [[f|] c] eqn:Hc.
    - unfold FormatDate.callFormat in Hfirst. injection Hfirst as Hr <-.
      exists f. split; [done|]. split; [done|]. simpl.
      specialize (Hget key f (formatters st)). rewrite Hc in Hget.
      by apply Hget.
    - destruct (newDateFormatter DateTimeFormat locale options
                  (set_formatters c st)) as [[f|e] st'] eqn:Hnew; [|done].
      unfold FormatDate.callFormat in Hfirst. injection Hfirst as Hr <-.
      exists f. split; [done|]. split; [|apply Hset].
      unfold newDateFormatter, construct in Hnew.
      destruct (DateTimeFormat (Some locale) options).
      + by injection Hnew as _ <-.
      + destruct (DateTimeFormat None options); by injection Hnew as _ <-. }
  destruct Hcached as (f & Hr & Hlocale & Hhit).
  exists f. split; [done|].
  rewrite Hlocale. fold locale.
  unfold bind, FormatDate.getDateFormatter. fold key.
  destruct (cacheGet key (formatters st1)) as [o c]. simpl in Hhit. subst o.
  done.
Qed.

(** X11.  When [Intl] refuses the requested locales and accepts the
    options with its own default, a formatter not yet cached is made for
    the default locale, both constructions being tried in that order, and
    stored under the key of the requested locales; with a cache that
    gives back what was just stored, asking again for these locales and
    options returns that formatter without a call of [Intl], so the
    refused locales are not tried again. *)
Theorem getDateFormatter_falls_back locale options (st : State) c e formatter :
  (∀ k v c', (cacheGet k (cacheSet k v c')).1 = Some v) →
  cacheGet (cacheKey locale options) (formatters st) = (None, c) →
  DateTimeFormat (Some locale) options = Throw e →
  DateTimeFormat None options = Ok formatter →
  ∃ st',
    getDateFormatter locale options st = (Ok formatter, st') ∧
    formatters st' = cacheSet (cacheKey locale options) formatter c ∧
    intlCalls st' = intlCalls st ++
      [Constructed (Some locale) options; Constructed None options] ∧
    (getDateFormatter locale options st').1 = Ok formatter ∧
    intlCalls (getDateFormatter locale options st').2 = intlCalls st'.
Proof.
  intros Hcache Hc Hfirst Hsecond.
  unfold FormatDate.getDateFormatter, newDateFormatter, construct.
  rewrite Hc, Hfirst, Hsecond. eexists. split; [reflexivity|]. simpl.
  split; [done|]. split; [by rewrite <- app_assoc|].
  specialize (Hcache (cacheKey locale options) formatter c).
  destruct (cacheGet (cacheKey locale options)
              (cacheSet (cacheKey locale options) formatter c))
    as [found c'] eqn:Hget.
  simpl in Hcache. subst found. done.
Qed.

(** X12.  When [Intl] refuses the options also with its default locale,
    [formatDate] raises that second error: nothing is stored in the cache
    and nothing is formatted. *)
Theorem formatDate_construction_fails date options (st : State) c e e' :
  isNaN (valueOf date) = false →
  cacheGet (cacheKey (localesFor (dateLocale st)) options) (formatters st)
    = (None, c) →
  DateTimeFormat (Some (localesFor (dateLocale st))) options = Throw e →
  DateTimeFormat None options = Throw e' →
  ∃ st',
    formatDate date options st = (Throw e', st') ∧
    formatters st' = c ∧
    intlCalls st' = intlCalls st ++
      [Constructed (Some (localesFor (dateLocale st))) options;
       Constructed None options].
Proof.
  intros Hd Hc Hfirst Hsecond. rewrite formatDate_valid by done.
  unfold bind, FormatDate.getDateFormatter, newDateFormatter, construct.
  rewrite Hc, Hfirst, Hsecond. eexists. split; [reflexivity|]. simpl.
  split; [done|]. by rewrite <- app_assoc.
Qed.

(** X13.  [setDateLocale] never raises, whatever the parser does; it
    returns the [dateLocale] it leaves configured, and it touches neither
    the cache of formatters nor [Intl]. *)
Theorem setDateLocale_returns_configured_locale locale (st : State) :
  ∃ st',
    setDateLocale locale st = (Ok (dateLocale st'), st') ∧
    formatters st' = formatters st ∧
    intlCalls st' = intlCalls st.
Proof.
  unfold FormatDate.setDateLocale.
  destruct locale as [locale|]; [|by exists (set_dateLocale None st)].
  cbv zeta. eexists. split; [reflexivity|].
  by destruct (parse (replaceAll locale "_" "-")) as [[[| |r]]|e].
Qed.

(** X14.  The configured locale stays English: with a parser whose
    regions are two letters or three digits, if [dateLocale] is undefined
    or "en-" followed by such a region, it is so after any call of
    [setDateLocale]; the language of the given locale string is never
    kept. *)
Theorem setDateLocale_keeps_english locale (st : State) :
  (∀ tag schema r,
     parse tag = Ok schema → region schema = RegionTag r → is_region r = true) →
  english (dateLocale st) →
  english (dateLocale (setDateLocale locale st).2).
Proof.
  intros Hparser Hen. unfold FormatDate.setDateLocale.
  destruct locale as [locale|]; [|by left].
  destruct (parse (replaceAll locale "_" "-")) as [[[| |r]]|e] eqn:Hparse; simpl.
  - by left.
  - right. by exists "US".
  - right. exists r. split; [done|]. by eapply Hparser.
  - exact Hen.
Qed.

(** X15.  Underscores and hyphens are interchangeable in the locale
    string: a string and the string with its underscores replaced by
    hyphens give the same return value and the same configured locale. *)
Theorem setDateLocale_underscore_or_hyphen locale (st : State) :
  (setDateLocale (Some locale) st).1
    = (setDateLocale (Some (replaceAll locale "_" "-")) st).1 ∧
  dateLocale (setDateLocale (Some locale) st).2
    = dateLocale (setDateLocale (Some (replaceAll locale "_" "-")) st).2.
Proof.
  unfold FormatDate.setDateLocale. rewrite replaceAll_again.
  destruct (parse (replaceAll locale "_" "-")) as [[[| |r]]|e]; done.
Qed.

(** X16.  For every locale string in which the parser reads a region,
    [setDateLocale] configures "en-" followed by that region, without a
    log entry, and [formatDate] then asks for the formatter of that locale
    with "en-US" as the second choice. *)
Theorem setDateLocale_region locale (st : State) schema r :
  parse (replaceAll locale "_" "-") = Ok schema →
  region schema = RegionTag r →
  setDateLocale (Some locale) st
    = (Ok (Some ("en-" +:+ r)), set_dateLocale (Some ("en-" +:+ r)) st) ∧
  ∀ date options,
    isNaN (valueOf date) = false →
    formatDate date options (set_dateLocale (Some ("en-" +:+ r)) st) =
      bind (getDateFormatter (LocaleList ["en-" +:+ r; defaultLocale]) options)
           (λ formatter, callFormat formatter date)
           (set_dateLocale (Some ("en-" +:+ r)) st).
Proof.
  intros Hparse Hregion. split.
  - unfold FormatDate.setDateLocale. by rewrite Hparse, Hregion.
  - intros date options Hd. by rewrite formatDate_valid.
Qed.

End Formatting.

(** *** Closed instances *)

(** What the tag reader gives for some locale strings of the
    environment, after the underscores are replaced. *)
Example readTag_regions :
  readTag (replaceAll "en_US.UTF-8" "_" "-") = Ok (mkSchema (RegionTag "US")) ∧
  readTag (replaceAll "zh_Hans_CN" "_" "-") = Ok (mkSchema (RegionTag "CN")) ∧
  readTag (replaceAll "zh-yue-HK" "_" "-") = Ok (mkSchema (RegionTag "HK")) ∧
  readTag (replaceAll "es_419" "_" "-") = Ok (mkSchema (RegionTag "419")) ∧
  readTag (replaceAll "en-GB-oed" "_" "-") = Ok (mkSchema (RegionTag "GB")) ∧
  readTag (replaceAll "sgn-BE-FR" "_" "-") = Ok (mkSchema RegionNull) ∧
  readTag (replaceAll "fr" "_" "-") = Ok (mkSchema RegionNull) ∧
  readTag (replaceAll "C" "_" "-") = Ok (mkSchema RegionNull) ∧
  readTag (replaceAll "" "_" "-") = Ok (mkSchema RegionNull).
Proof. repeat split; vm_compute; reflexivity. Qed.

Lemma assoc_get_after_set k v c : (assocGet k (assocSet k v c)).1 = Some v.
Proof. unfold assocGet, assocSet. simpl. by rewrite String.eqb_refl. Qed.

Lemma assoc_get_again k v c :
  (assocGet k c).1 = Some v → (assocGet k (assocGet k c).2).1 = Some v.
Proof. done. Qed.

Lemma formatDate_reuses_formatter_witness :
  ∃ formatter,
    showDate formatter (mkDate (Millis 42)) = Ok "42 [en-US]" ∧
    (exampleFormatDate (mkDate (Millis 43)) "short"
       (exampleFormatDate (mkDate (Millis 42)) "short" initialState).2).1
      = showDate formatter (mkDate (Millis 43)) ∧
    intlCalls (exampleFormatDate (mkDate (Millis 43)) "short"
       (exampleFormatDate (mkDate (Millis 42)) "short" initialState).2).2
      = intlCalls (exampleFormatDate (mkDate (Millis 42)) "short" initialState).2
        ++ [Formatted formatter (mkDate (Millis 43))].
Proof.
  apply (formatDate_reuses_formatter makeFormatter showDate keyOf assocGet assocSet
           (mkDate (Millis 42)) "short" initialState "42 [en-US]"
           (exampleFormatDate (mkDate (Millis 42)) "short" initialState).2
           (mkDate (Millis 43))).
  - apply assoc_get_after_set.
  - apply assoc_get_again.
  - reflexivity.
  - reflexivity.
  - vm_compute. reflexivity.
Defined.

Lemma getDateFormatter_falls_back_witness :
  ∃ st',
    getDateFormatter pickyFormatter keyOf assocGet assocSet
      (LocaleList ["en_CA"; "en-US"]) "short" initialState
      = (Ok (None, "short"), st') ∧
    formatters st' = [("en_CA,en-US|short", (None, "short"))] ∧
    intlCalls st' =
      [Constructed (Some (LocaleList ["en_CA"; "en-US"])) "short";
       Constructed None "short"] ∧
    (getDateFormatter pickyFormatter keyOf assocGet assocSet
       (LocaleList ["en_CA"; "en-US"]) "short" st').1 = Ok (None, "short") ∧
    intlCalls (getDateFormatter pickyFormatter keyOf assocGet assocSet
       (LocaleList ["en_CA"; "en-US"]) "short" st').2 = intlCalls st'.
Proof.
  apply (getDateFormatter_falls_back pickyFormatter keyOf assocGet assocSet
           (LocaleList ["en_CA"; "en-US"]) "short" initialState []
           (Rejected "RangeError: incorrect locale information provided")
           (None, "short")); [apply assoc_get_after_set|reflexivity..].
Defined.

Lemma formatDate_construction_fails_witness :
  ∃ st',
    formatDate pickyFormatter showDate keyOf assocGet assocSet
      (mkDate (Millis 42)) "invalid" initialState
      = (Throw (Rejected "RangeError: invalid option"), st') ∧
    formatters st' = [] ∧
    intlCalls st' =
      [Constructed (Some (Locale "en-US")) "invalid"; Constructed None "invalid"].
Proof.
  apply (formatDate_construction_fails pickyFormatter showDate keyOf assocGet
           assocSet (mkDate (Millis 42)) "invalid" initialState []
           (Rejected "RangeError: invalid option")
           (Rejected "RangeError: invalid option")); reflexivity.
Defined.

Lemma slice_two l i a b :
  l !! i = Some a → l !! (i + 1) = Some b →
  slice l i 2 = String a (String b EmptyString).
Proof.
  intros Ha Hb. unfold slice.
  rewrite <- (Nat.add_0_r i), <- lookup_drop in Ha.
  rewrite <- lookup_drop in Hb.
  by destruct (drop i l) as [|? [|? ?]]; simplify_eq/=.
Qed.

Lemma slice_three l i a b c :
  l !! i = Some a → l !! (i + 1) = Some b → l !! (i + 2) = Some c →
  slice l i 3 = String a (String b (String c EmptyString)).
Proof.
  intros Ha Hb Hc. unfold slice.
  rewrite <- (Nat.add_0_r i), <- lookup_drop in Ha.
  rewrite <- lookup_drop in Hb. rewrite <- lookup_drop in Hc.
  by destruct (drop i l) as [|? [|? [|? ?]]]; simplify_eq/=.
Qed.

Lemma char_at_true p l i :
  char_at p l i = true → ∃ c, l !! i = Some c ∧ p c = true.
Proof. unfold char_at. destruct (l !! i) as [c|]; [by exists c|done]. Qed.

(** A region read by [readRegion] is two letters or three digits. *)
Lemma readRegion_is_region l i r :
  readRegion l i = RegionTag r → is_region r = true.
Proof.
  unfold readRegion. destruct (char_at is_hyphen l i); [|done].
  destruct (char_at is_alpha l (i + 1) && char_at is_alpha l (i + 2) &&
            negb (char_at is_alpha l (i + 3))) eqn:Hletters.
  - intros [= <-].
    apply andb_prop in Hletters as [Hletters _].
    apply andb_prop in Hletters as [(a & Ha & Hpa)%char_at_true
                                     (b & Hb & Hpb)%char_at_true].
    replace (i + 2) with (i + 1 + 1) in Hb by lia.
    rewrite (slice_two _ _ _ _ Ha Hb). unfold is_region, all_chars. simpl.
    by rewrite Hpa, Hpb.
  - destruct (char_at is_digit l (i + 1) && char_at is_digit l (i + 2) &&
              char_at is_digit l (i + 3) && negb (char_at is_digit l (i + 4)))
      eqn:Hdigits; [|done].
    intros [= <-].
    apply andb_prop in Hdigits as [Hdigits _].
    apply andb_prop in Hdigits as [Hdigits (c & Hc & Hpc)%char_at_true].
    apply andb_prop in Hdigits as [(a & Ha & Hpa)%char_at_true
                                    (b & Hb & Hpb)%char_at_true].
    replace (i + 2) with (i + 1 + 1) in Hb by lia.
    replace (i + 3) with (i + 1 + 2) in Hc by lia.
    rewrite (slice_three _ _ _ _ _ Ha Hb Hc). unfold is_region, all_chars.
    simpl. rewrite Hpa, Hpb, Hpc. simpl. by rewrite orb_true_r.
Qed.

Lemma readSubtags_is_region tag schema r :
  readSubtags tag = Ok schema → region schema = RegionTag r →
  is_region r = true.
Proof.
  unfold readSubtags. cbv zeta.
  destruct (bool_decide _); [|by intros [= <-]].
  destruct (if bool_decide _ then _ else _) as [index|]; [|by intros [= <-]].
  intros [= <-]. apply readRegion_is_region.
Qed.

(** The regions [readTag] reports are two letters or three digits. *)
Lemma readTag_is_region tag schema r :
  readTag tag = Ok schema → region schema = RegionTag r → is_region r = true.
Proof.
  unfold readTag.
  destruct (normalFind (toLowerCase tag) normal) as [[replacement|]|].
  - apply readSubtags_is_region.
  - by intros [= <-].
  - apply readSubtags_is_region.
Qed.

Lemma setDateLocale_keeps_english_witness :
  english (dateLocale canadianState) ∧
  english (dateLocale (exampleSetDateLocale (Some "de_AT") canadianState).2) ∧
  dateLocale (exampleSetDateLocale (Some "de_AT") canadianState).2
    = Some "en-AT".
Proof.
  assert (Hen : english (dateLocale canadianState))
    by (right; by exists "CA").
  split; [exact Hen|]. split; [|reflexivity].
  apply (setDateLocale_keeps_english readTag (Some "de_AT") canadianState
           readTag_is_region Hen).
Defined.

Lemma setDateLocale_region_witness :
  exampleSetDateLocale (Some "de_AT") canadianState
  = (Ok (Some "en-AT"), set_dateLocale (Some "en-AT") canadianState).
Proof.
  apply (setDateLocale_region readTag makeFormatter showDate keyOf assocGet
           assocSet "de_AT" canadianState (mkSchema (RegionTag "AT")) "AT");
    reflexivity.
Defined.

End FormatDateMore.
